(** * String Analyzer service: a shallow embedding of [main.py]

    The service stores strings, derives properties of each one
    ([analyze_string]), resolves tokens to stored records ([find_string]),
    filters records ([apply_filters]) and turns a few English phrases into
    filters ([parse_query]).

    Modelling choices.
    - A Python [str] is a [string]; each [ascii] is the code point of the same
      number, so the texts covered are those over U+0000..U+00FF.  On that
      range [str.lower], [str.strip], the regex classes [\s], [\S], [\d],
      [[a-z]], [[0-9a-f]] and the UTF-8 encoder are modelled exactly.
    - Python [int] is [Z]; [int(s)] fails as CPython's does, on a numeral of
      more than 4300 digits.
    - [hashlib.sha256] is SHA-256 (FIPS 180-4), written out over [Z] words.
    - The global [STORE] is a [dict]: an insertion-ordered association list
      threaded through the handlers; a handler returns the store it leaves
      together with its response.
    - [raise HTTPException(...)] is the [inl] of a sum, the returned value the
      [inr]. *)

From Stdlib Require Import ZArith List Bool Ascii String Lia.
From Stdlib Require DecimalFacts DecimalNat DecimalString.
Import ListNotations.

Local Open Scope string_scope.
Local Open Scope list_scope.
Local Open Scope Z_scope.

(* ------------------------------------------------------------------ *)
(** ** Python [str] operations *)

Module Str.

(** Code point of a character, [ord(c)]. *)
Definition ord (c : ascii) : Z := Z.of_N (N_of_ascii c).

Definition chr (n : Z) : ascii := ascii_of_N (Z.to_N n).

Definition in_range (lo hi : Z) (c : ascii) : bool :=
  (lo <=? ord c) && (ord c <=? hi).

(** [c.lower()] on one code point: A-Z, and U+00C0..U+00DE apart from the
    multiplication sign U+00D7, move up by 32; everything else stays.  Below
    U+0100 lowercasing goes character by character and keeps the length;
    above, [str.lower] can depend on the neighbours (the final sigma) and
    lengthen the text (U+0130), which is outside this model. *)
Definition lower_char (c : ascii) : ascii :=
  if in_range 65 90 c || (in_range 192 222 c && negb (ord c =? 215))
  then chr (ord c + 32)
  else c.

(** [s.lower()] *)
Fixpoint lower (s : string) : string :=
  match s with
  | EmptyString => EmptyString
  | String c s' => String (lower_char c) (lower s')
  end.

(** [s[::-1]] *)
Fixpoint rev_append (s acc : string) : string :=
  match s with
  | EmptyString => acc
  | String c s' => rev_append s' (String c acc)
  end.

Definition rev (s : string) : string := rev_append s EmptyString.

(** Unicode white space below U+0100: what [\s] and [str.strip] test. *)
Definition is_space (c : ascii) : bool :=
  in_range 9 13 c || in_range 28 32 c || (ord c =? 133) || (ord c =? 160).

(** [\d] *)
Definition is_digit (c : ascii) : bool := in_range 48 57 c.

(** [[a-z]] *)
Definition is_lower_letter (c : ascii) : bool := in_range 97 122 c.

(** [[0-9a-f]] *)
Definition is_hex_lower (c : ascii) : bool :=
  in_range 48 57 c || in_range 97 102 c.

Fixpoint all (p : ascii -> bool) (s : string) : bool :=
  match s with
  | EmptyString => true
  | String c s' => p c && all p s'
  end.

(** [s.lstrip()] *)
Fixpoint lstrip (s : string) : string :=
  match s with
  | EmptyString => EmptyString
  | String c s' => if is_space c then lstrip s' else s
  end.

(** [s.strip()]: white space removed at both ends. *)
Definition strip (s : string) : string := rev (lstrip (rev (lstrip s))).

(** [s.startswith(p)], with the rest of [s] when it does. *)
Fixpoint strip_prefix (p s : string) : option string :=
  match p, s with
  | EmptyString, _ => Some s
  | String _ _, EmptyString => None
  | String a p', String b s' =>
      if Ascii.eqb a b then strip_prefix p' s' else None
  end.

(** [sub in s] *)
Fixpoint contains (sub s : string) : bool :=
  match strip_prefix sub s with
  | Some _ => true
  | None =>
      match s with
      | EmptyString => false
      | String _ s' => contains sub s'
      end
  end.

(** The longest prefix of [s] whose characters satisfy [p], and the rest. *)
Fixpoint span (p : ascii -> bool) (s : string) : string * string :=
  match s with
  | EmptyString => (EmptyString, EmptyString)
  | String c s' =>
      if p c then let (run, rest) := span p s' in (String c run, rest)
      else (EmptyString, s)
  end.

(** The number a string of decimal digits denotes. *)
Fixpoint int_acc (acc : Z) (ds : string) : Z :=
  match ds with
  | EmptyString => acc
  | String c ds' => int_acc (10 * acc + (ord c - 48)) ds'
  end.

Definition int_value (ds : string) : Z := int_acc 0 ds.

(** [str(n)] for a natural number: its decimal numeral. *)
Definition str_of_nat (n : nat) : string :=
  DecimalString.NilEmpty.string_of_uint (Nat.to_uint n).

(** [sys.int_info.default_max_str_digits]: CPython converts no string of
    more digits than this to an [int]. *)
Definition max_str_digits : nat := 4300.

(** The message of the [ValueError] that [int(ds)] raises past the limit. *)
Definition int_error (ds : string) : string :=
  "Exceeds the limit (4300 digits) for integer string conversion: value has "
  ++ str_of_nat (String.length ds)
  ++ " digits; use sys.set_int_max_str_digits() to increase the limit".

(** [int(ds)] for a string of decimal digits: the number it denotes, or,
    past [max_str_digits] digits (leading zeros count), [ValueError] with the
    message on the left. *)
Definition int (ds : string) : string + Z :=
  if (String.length ds <=? max_str_digits)%nat
  then inr (int_value ds)
  else inl (int_error ds).

(** [c * n]: the character [n] times. *)
Fixpoint repeat (c : ascii) (n : nat) : string :=
  match n with
  | O => EmptyString
  | S n' => String c (repeat c n')
  end.

(** [s.encode()]: UTF-8, one byte below U+0080 and two bytes from there to
    U+00FF. *)
Fixpoint encode (s : string) : list Z :=
  match s with
  | EmptyString => []
  | String c s' =>
      if ord c <? 128 then ord c :: encode s'
      else Z.lor 192 (Z.shiftr (ord c) 6)
             :: Z.lor 128 (Z.land (ord c) 63) :: encode s'
  end.

(** [s[n:]] *)
Fixpoint drop (n : nat) (s : string) : string :=
  match n, s with
  | O, _ => s
  | S _, EmptyString => EmptyString
  | S n', String _ s' => drop n' s'
  end.

(** [len(s)] *)
Definition len (s : string) : Z := Z.of_nat (String.length s).

End Str.

(* ------------------------------------------------------------------ *)
(** ** [hashlib.sha256(...).hexdigest()] *)

Module SHA256.

Definition w32 (x : Z) : Z := Z.land x 0xFFFFFFFF.

Definition add32 (x y : Z) : Z := w32 (x + y).

Definition rotr (n x : Z) : Z :=
  Z.lor (Z.shiftr x n) (w32 (Z.shiftl x (32 - n))).

Definition ch (x y z : Z) : Z :=
  Z.lxor (Z.land x y) (Z.land (Z.lxor x 0xFFFFFFFF) z).

Definition maj (x y z : Z) : Z :=
  Z.lxor (Z.lxor (Z.land x y) (Z.land x z)) (Z.land y z).

Definition bsig0 (x : Z) : Z :=
  Z.lxor (Z.lxor (rotr 2 x) (rotr 13 x)) (rotr 22 x).

Definition bsig1 (x : Z) : Z :=
  Z.lxor (Z.lxor (rotr 6 x) (rotr 11 x)) (rotr 25 x).

Definition ssig0 (x : Z) : Z :=
  Z.lxor (Z.lxor (rotr 7 x) (rotr 18 x)) (Z.shiftr x 3).

Definition ssig1 (x : Z) : Z :=
  Z.lxor (Z.lxor (rotr 17 x) (rotr 19 x)) (Z.shiftr x 10).

Definition round_constants : list Z :=
  [0x428a2f98; 0x71374491; 0xb5c0fbcf; 0xe9b5dba5] ++
  [0x3956c25b; 0x59f111f1; 0x923f82a4; 0xab1c5ed5] ++
  [0xd807aa98; 0x12835b01; 0x243185be; 0x550c7dc3] ++
  [0x72be5d74; 0x80deb1fe; 0x9bdc06a7; 0xc19bf174] ++
  [0xe49b69c1; 0xefbe4786; 0x0fc19dc6; 0x240ca1cc] ++
  [0x2de92c6f; 0x4a7484aa; 0x5cb0a9dc; 0x76f988da] ++
  [0x983e5152; 0xa831c66d; 0xb00327c8; 0xbf597fc7] ++
  [0xc6e00bf3; 0xd5a79147; 0x06ca6351; 0x14292967] ++
  [0x27b70a85; 0x2e1b2138; 0x4d2c6dfc; 0x53380d13] ++
  [0x650a7354; 0x766a0abb; 0x81c2c92e; 0x92722c85] ++
  [0xa2bfe8a1; 0xa81a664b; 0xc24b8b70; 0xc76c51a3] ++
  [0xd192e819; 0xd6990624; 0xf40e3585; 0x106aa070] ++
  [0x19a4c116; 0x1e376c08; 0x2748774c; 0x34b0bcb5] ++
  [0x391c0cb3; 0x4ed8aa4a; 0x5b9cca4f; 0x682e6ff3] ++
  [0x748f82ee; 0x78a5636f; 0x84c87814; 0x8cc70208] ++
  [0x90befffa; 0xa4506ceb; 0xbef9a3f7; 0xc67178f2].

(** The eight working words. *)
Record words8 : Type := W8
  { wa : Z; wb : Z; wc : Z; wd : Z; we : Z; wf : Z; wg : Z; wh : Z }.

Definition initial_hash : words8 :=
  W8 0x6a09e667 0xbb67ae85 0x3c6ef372 0xa54ff53a
     0x510e527f 0x9b05688c 0x1f83d9ab 0x5be0cd19.

(** Big-endian bytes of the 64-bit message length. *)
Definition be64 (n : Z) : list Z :=
  map (fun i => Z.land (Z.shiftr n (8 * i)) 255) [7; 6; 5; 4; 3; 2; 1; 0].

(** The message, the byte 0x80, zero bytes up to 56 modulo 64, the length
    in bits. *)
Definition pad (msg : list Z) : list Z :=
  let n := Z.of_nat (List.length msg) in
  msg ++ [0x80] ++ repeat 0 (Z.to_nat ((55 - n) mod 64)) ++ be64 (8 * n).

Fixpoint blocks (fuel : nat) (bytes : list Z) : list (list Z) :=
  match fuel, bytes with
  | O, _ | _, [] => []
  | S fuel', _ => firstn 64 bytes :: blocks fuel' (skipn 64 bytes)
  end.

Fixpoint words (bytes : list Z) : list Z :=
  match bytes with
  | b0 :: b1 :: b2 :: b3 :: rest =>
      Z.lor (Z.lor (Z.shiftl b0 24) (Z.shiftl b1 16))
            (Z.lor (Z.shiftl b2 8) b3) :: words rest
  | _ => []
  end.

(** Message schedule; [recent] holds the words so far, newest first. *)
Fixpoint extend (n : nat) (recent : list Z) : list Z :=
  match n with
  | O => recent
  | S n' =>
      let w := add32 (add32 (add32 (ssig1 (nth 1 recent 0)) (nth 6 recent 0))
                            (ssig0 (nth 14 recent 0)))
                     (nth 15 recent 0) in
      extend n' (w :: recent)
  end.

Definition schedule (block : list Z) : list Z :=
  List.rev (extend 48 (List.rev (words block))).

Definition round (s : words8) (kw : Z * Z) : words8 :=
  let t1 := add32 (add32 (add32 (add32 (wh s) (bsig1 (we s)))
                                (ch (we s) (wf s) (wg s)))
                         (fst kw))
                  (snd kw) in
  let t2 := add32 (bsig0 (wa s)) (maj (wa s) (wb s) (wc s)) in
  W8 (add32 t1 t2) (wa s) (wb s) (wc s) (add32 (wd s) t1) (we s) (wf s) (wg s).

Definition compress (H : words8) (block : list Z) : words8 :=
  let s := fold_left round (combine round_constants (schedule block)) H in
  W8 (add32 (wa H) (wa s)) (add32 (wb H) (wb s))
     (add32 (wc H) (wc s)) (add32 (wd H) (wd s))
     (add32 (we H) (we s)) (add32 (wf H) (wf s))
     (add32 (wg H) (wg s)) (add32 (wh H) (wh s)).

Definition digest (msg : list Z) : words8 :=
  let padded := pad msg in
  fold_left compress (blocks (List.length padded) padded) initial_hash.

(** One lowercase hexadecimal digit from the four bits of a nibble. *)
Definition hex_of_bits (b3 b2 b1 b0 : bool) : ascii :=
  match b3, b2, b1, b0 with
  | false, false, false, false => "0"
  | false, false, false, true => "1"
  | false, false, true, false => "2"
  | false, false, true, true => "3"
  | false, true, false, false => "4"
  | false, true, false, true => "5"
  | false, true, true, false => "6"
  | false, true, true, true => "7"
  | true, false, false, false => "8"
  | true, false, false, true => "9"
  | true, false, true, false => "a"
  | true, false, true, true => "b"
  | true, true, false, false => "c"
  | true, true, false, true => "d"
  | true, true, true, false => "e"
  | true, true, true, true => "f"
  end%char.

(** The hexadecimal digit of the nibble of [w] that starts at bit [i]. *)
Definition hex_at (w i : Z) : ascii :=
  hex_of_bits (Z.testbit w (i + 3)) (Z.testbit w (i + 2))
              (Z.testbit w (i + 1)) (Z.testbit w i).

Definition hex8 (w : Z) (tail : string) : string :=
  String (hex_at w 28) (String (hex_at w 24) (String (hex_at w 20)
 (String (hex_at w 16) (String (hex_at w 12) (String (hex_at w 8)
 (String (hex_at w 4) (String (hex_at w 0) tail))))))).

Definition hexdigest (msg : list Z) : string :=
  let d := digest msg in
  hex8 (wa d) (hex8 (wb d) (hex8 (wc d) (hex8 (wd d)
 (hex8 (we d) (hex8 (wf d) (hex8 (wg d) (hex8 (wh d) EmptyString))))))).

End SHA256.

(* ------------------------------------------------------------------ *)
(** ** Python [dict]: insertion-ordered, keyed by [str] *)

Module Dict.

Definition t (V : Type) : Type := list (string * V).

(** [d.get(k)]; also decides [k in d] and gives [d[k]]. *)
Fixpoint get {V} (k : string) (d : t V) : option V :=
  match d with
  | [] => None
  | (k', v) :: d' => if String.eqb k k' then Some v else get k d'
  end.

(** [k in d] *)
Definition mem {V} (k : string) (d : t V) : bool :=
  match get k d with Some _ => true | None => false end.

(** [d[k] = v]: a present key keeps its place, a new key goes last. *)
Fixpoint set {V} (k : string) (v : V) (d : t V) : t V :=
  match d with
  | [] => [(k, v)]
  | (k', v') :: d' =>
      if String.eqb k k' then (k', v) :: d' else (k', v') :: set k v d'
  end.

(** [del d[k]]: [None] stands for the [KeyError] of an absent key. *)
Fixpoint del {V} (k : string) (d : t V) : option (t V) :=
  match d with
  | [] => None
  | (k', v') :: d' =>
      if String.eqb k k' then Some d'
      else match del k d' with
           | Some d'' => Some ((k', v') :: d'')
           | None => None
           end
  end.

(** [list(d.values())] *)
Definition values {V} (d : t V) : list V := map snd d.

(** [list(d.keys())] *)
Definition keys {V} (d : t V) : list string := map fst d.

End Dict.

(* ------------------------------------------------------------------ *)
(** ** Records *)

(** The dicts of the service have fixed keys; each is a record, in a module
    of its own since [is_palindrome] and [word_count] name both a property
    and a filter. *)
Module StringProperties.

Record t : Type := mk
  { length : Z;
    is_palindrome : bool;
    unique_characters : Z;
    word_count : Z;
    sha256_hash : string;
    character_frequency_map : Dict.t Z }.

End StringProperties.

Module StringRecord.

Record t : Type := mk
  { id : string;
    value : string;
    properties : StringProperties.t;
    created_at : string }.

End StringRecord.

(** [STORE: Dict[str, Dict]] *)
Definition Store : Type := Dict.t StringRecord.t.

(** The keyword arguments of [apply_filters], and the [filters] dict that
    [parse_query] builds; an absent key, or [None], is [None]. *)
Module Filters.

Record t : Type := mk
  { is_palindrome : option bool;
    min_length : option Z;
    max_length : option Z;
    word_count : option Z;
    contains_character : option string }.

(** [{}] *)
Definition empty : t := mk None None None None None.

(** [not filters]: the dict has no key. *)
Definition is_empty (f : t) : bool :=
  match f with
  | mk None None None None None => true
  | _ => false
  end.

End Filters.

Record HTTPException : Type := mkHTTPException
  { status_code : Z; detail : string }.

(** What a call raises. *)
Inductive raised : Type :=
| HTTP (e : HTTPException)
| ValueError (msg : string)
| KeyError (key : string).

Definition result (A : Type) : Type := (raised + A)%type.

(* ------------------------------------------------------------------ *)
(** ** Analyzer *)

Definition normalize (text : string) : string := Str.lower text.

(** [len(set(s))]: the distinct characters met so far, oldest first. *)
Fixpoint set_of (s : string) (seen : list ascii) : list ascii :=
  match s with
  | EmptyString => seen
  | String c s' =>
      set_of s' (if existsb (Ascii.eqb c) seen then seen else seen ++ [c])
  end.

(** [Counter(s)]: each character bumps its own count, a new character
    enters after the ones already there, with count 1. *)
Fixpoint Counter (s : string) (counts : Dict.t Z) : Dict.t Z :=
  match s with
  | EmptyString => counts
  | String c s' =>
      let k := String c EmptyString in
      let n := match Dict.get k counts with Some n => n | None => 0 end in
      Counter s' (Dict.set k (n + 1) counts)
  end.

(** [re.findall(r"\S+", s)]: the maximal runs of characters that are not
    white space, left to right; [run] is the run being read, newest
    character first. *)
Fixpoint findall_nonspace_from (run s : string) : list string :=
  match s with
  | EmptyString =>
      match run with
      | EmptyString => []
      | _ => [Str.rev run]
      end
  | String c s' =>
      if Str.is_space c then
        match run with
        | EmptyString => findall_nonspace_from EmptyString s'
        | _ => Str.rev run :: findall_nonspace_from EmptyString s'
        end
      else findall_nonspace_from (String c run) s'
  end.

Definition findall_nonspace (s : string) : list string :=
  findall_nonspace_from EmptyString s.

Definition analyze_string (value : string) : StringProperties.t :=
  let lower_value := normalize value in
  let length := Str.len value in
  let is_palindrome := String.eqb lower_value (Str.rev lower_value) in
  let unique_characters := Z.of_nat (List.length (set_of lower_value [])) in
  let word_count := Z.of_nat (List.length (findall_nonspace value)) in
  let sha_hash := SHA256.hexdigest (Str.encode lower_value) in
  let character_map := Counter lower_value [] in
  StringProperties.mk length is_palindrome unique_characters word_count
    sha_hash character_map.

(* ------------------------------------------------------------------ *)
(** ** Filter engine *)

(** The body of the loop of [apply_filters]: [true] where the item reaches
    [results.append(item)], [false] where one of the [continue]s is taken. *)
Definition passes (is_palindrome : option bool)
    (min_length max_length word_count : option Z)
    (contains_character : option string) (item : StringRecord.t) : bool :=
  let props := StringRecord.properties item in
  match is_palindrome with
  | Some b => Bool.eqb (StringProperties.is_palindrome props) b
  | None => true
  end &&
  match min_length with
  | Some n => negb (StringProperties.length props <? n)
  | None => true
  end &&
  match max_length with
  | Some n => negb (StringProperties.length props >? n)
  | None => true
  end &&
  match word_count with
  | Some n => StringProperties.word_count props =? n
  | None => true
  end &&
  match contains_character with
  | None | Some EmptyString => true
  | Some s =>
      let ch := normalize s in
      Dict.mem ch (StringProperties.character_frequency_map props)
  end.

(** The loop itself, [results] growing at its end. *)
Fixpoint apply_filters_loop (is_palindrome : option bool)
    (min_length max_length word_count : option Z)
    (contains_character : option string)
    (strings results : list StringRecord.t) : list StringRecord.t :=
  match strings with
  | [] => results
  | item :: rest =>
      apply_filters_loop is_palindrome min_length max_length word_count
        contains_character rest
        (if passes is_palindrome min_length max_length word_count
              contains_character item
         then results ++ [item] else results)
  end.

Definition apply_filters (strings : list StringRecord.t)
    (is_palindrome : option bool) (min_length max_length word_count : option Z)
    (contains_character : option string) : list StringRecord.t :=
  apply_filters_loop is_palindrome min_length max_length word_count
    contains_character strings [].

(** [apply_filters(strings, **filters)] *)
Definition apply_filters_kw (strings : list StringRecord.t) (filters : Filters.t)
  : list StringRecord.t :=
  apply_filters strings (Filters.is_palindrome filters)
    (Filters.min_length filters) (Filters.max_length filters)
    (Filters.word_count filters) (Filters.contains_character filters).

(* ------------------------------------------------------------------ *)
(** ** Query interpreter *)

(** The pattern [longer than (\d+)] tried at the start of [q]: group 1 when
    it matches there; the digits are taken greedily. *)
Definition match_longer_than (q : string) : option string :=
  match Str.strip_prefix "longer than " q with
  | Some rest =>
      match fst (Str.span Str.is_digit rest) with
      | EmptyString => None
      | digits => Some digits
      end
  | None => None
  end.

(** [re.search(r"longer than (\d+)", q)]: the pattern is tried at each
    position from the left, the first match wins. *)
Fixpoint search_longer_than (q : string) : option string :=
  match match_longer_than q, q with
  | Some group1, _ => Some group1
  | None, EmptyString => None
  | None, String _ q' => search_longer_than q'
  end.

(** The pattern [containing the letter\s+([a-z])] tried at the start of [q].
    After the longest run of white space the next character has to be a
    letter; giving white space back cannot help, as what would then come
    next is white space. *)
Definition match_containing_letter (q : string) : option string :=
  match Str.strip_prefix "containing the letter" q with
  | Some rest =>
      match Str.span Str.is_space rest with
      | (String _ _, String c _) =>
          if Str.is_lower_letter c then Some (String c EmptyString) else None
      | _ => None
      end
  | None => None
  end.

(** [re.search(r"containing the letter\s+([a-z])", q)] *)
Fixpoint search_containing_letter (q : string) : option string :=
  match match_containing_letter q, q with
  | Some group1, _ => Some group1
  | None, EmptyString => None
  | None, String _ q' => search_containing_letter q'
  end.

Definition parse_query (query : string) : result Filters.t :=
  let q := Str.strip (Str.lower query) in
  let filters := Filters.empty in
  let filters :=
    if Str.contains "palind" q
    then Filters.mk (Some true) (Filters.min_length filters)
           (Filters.max_length filters) (Filters.word_count filters)
           (Filters.contains_character filters)
    else filters in
  let filters :=
    if Str.contains "single word" q
    then Filters.mk (Filters.is_palindrome filters) (Filters.min_length filters)
           (Filters.max_length filters) (Some 1)
           (Filters.contains_character filters)
    else filters in
  let longer :=
    match search_longer_than q with
    | Some group1 =>
        match Str.int group1 with
        | inl msg => inl (ValueError msg)
        | inr n =>
            inr (Filters.mk (Filters.is_palindrome filters) (Some (n + 1))
                   (Filters.max_length filters) (Filters.word_count filters)
                   (Filters.contains_character filters))
        end
    | None => inr filters
    end in
  match longer with
  | inl raised_by_int => inl raised_by_int
  | inr filters =>
      let filters :=
        match search_containing_letter q with
        | Some group1 =>
            Filters.mk (Filters.is_palindrome filters)
              (Filters.min_length filters) (Filters.max_length filters)
              (Filters.word_count filters) (Some group1)
        | None => filters
        end in
      let filters :=
        if Str.contains "first vowel" q
        then Filters.mk (Filters.is_palindrome filters)
               (Filters.min_length filters) (Filters.max_length filters)
               (Filters.word_count filters) (Some "a")
        else filters in
      if Filters.is_empty filters
      then inl (ValueError "Couldn't understand the query.")
      else inr filters
  end.

(* ------------------------------------------------------------------ *)
(** ** Lookup resolver *)

(** [re.fullmatch(r"[0-9a-f]{64}", s)] *)
Definition is_fingerprint (s : string) : bool :=
  (String.length s =? 64)%nat && Str.all Str.is_hex_lower s.

Definition find_string (value_or_id : string) (STORE : Store)
  : option StringRecord.t :=
  if is_fingerprint value_or_id then Dict.get value_or_id STORE
  else
    let norm := normalize value_or_id in
    let sid := SHA256.hexdigest (Str.encode norm) in
    match Dict.get sid STORE with
    | Some record => Some record
    | None =>
        find (fun record => String.eqb (Str.lower (StringRecord.value record)) norm)
             (Dict.values STORE)
    end.

(* ------------------------------------------------------------------ *)
(** ** Endpoints *)

Definition HTTPError {A} (status_code : Z) (detail : string) : result A :=
  inl (HTTP (mkHTTPException status_code detail)).

(** [POST /strings]; [now] is what [get_time_now()] reads off the clock.
    [data.value] is a [str] by the request model, so the [isinstance] guard
    never fires. *)
Definition create_string (now : string) (value : string) (STORE : Store)
  : Store * result StringRecord.t :=
  let props := analyze_string value in
  let sid := StringProperties.sha256_hash props in
  if Dict.mem sid STORE then (STORE, HTTPError 409 "String already exists")
  else
    let record := StringRecord.mk sid value props now in
    (Dict.set sid record STORE, inr record).

Record ListResponse : Type := mkListResponse
  { data : list StringRecord.t;
    count : Z;
    filters_applied : Filters.t }.

(** [GET /strings].  an empty [str] is falsy, so the length test is reached by
    non-empty values only. *)
Definition list_strings (is_palindrome : option bool)
    (min_length max_length word_count : option Z)
    (contains_character : option string) (STORE : Store)
  : result ListResponse :=
  let reject :=
    match contains_character with
    | None | Some EmptyString => false
    | Some s => negb (String.length s =? 1)%nat
    end in
  if reject then HTTPError 400 "contains_character must be one letter"
  else
    let results :=
      apply_filters (Dict.values STORE) is_palindrome min_length max_length
        word_count contains_character in
    inr (mkListResponse results (Z.of_nat (List.length results))
           (Filters.mk is_palindrome min_length max_length word_count
              contains_character)).

Record InterpretedQuery : Type := mkInterpretedQuery
  { original : string; parsed_filters : Filters.t }.

Record NLResponse : Type := mkNLResponse
  { nl_data : list StringRecord.t;
    nl_count : Z;
    interpreted_query : InterpretedQuery }.

(** [GET /strings/filter-by-natural-language] *)
Definition filter_nl (query : string) (STORE : Store) : result NLResponse :=
  match parse_query query with
  | inl (ValueError e) => HTTPError 400 e
  | inl other => inl other
  | inr filters =>
      let filtered := apply_filters_kw (Dict.values STORE) filters in
      inr (mkNLResponse filtered (Z.of_nat (List.length filtered))
             (mkInterpretedQuery query filters))
  end.

(** [GET /strings/{string_value}] *)
Definition get_string (string_value : string) (STORE : Store)
  : result StringRecord.t :=
  match find_string string_value STORE with
  | None => HTTPError 404 "String not found"
  | Some record => inr record
  end.

(** [DELETE /strings/{string_value}]; the value returned is the status of the
    [JSONResponse]. *)
Definition delete_string (string_value : string) (STORE : Store)
  : Store * result Z :=
  match find_string string_value STORE with
  | None => (STORE, HTTPError 404 "String not found")
  | Some record =>
      match Dict.del (StringRecord.id record) STORE with
      | None => (STORE, inl (KeyError (StringRecord.id record)))
      | Some STORE' => (STORE', inr 204)
      end
  end.

(** The stores the service can be in: it starts empty and only [create_string]
    and [delete_string] write to it. *)
Inductive reachable : Store -> Prop :=
| reach_start : reachable []
| reach_create now value STORE :
    reachable STORE -> reachable (fst (create_string now value STORE))
| reach_delete string_value STORE :
    reachable STORE -> reachable (fst (delete_string string_value STORE)).

(* ------------------------------------------------------------------ *)
(** ** Specification-side notions *)

(** The fingerprint the service gives a value. *)
Definition fingerprint_of (value : string) : string :=
  SHA256.hexdigest (Str.encode (normalize value)).

(** Number of occurrences of [c] in [s]. *)
Fixpoint count_char (c : ascii) (s : string) : Z :=
  match s with
  | EmptyString => 0
  | String c' s' => (if Ascii.eqb c c' then 1 else 0) + count_char c s'
  end.

(** The key a character has in a frequency map: the string of that one
    character. *)
Definition char_key (c : ascii) : string := String c EmptyString.

(** [counts[k]] read with 0 for an absent key. *)
Definition count_default (counts : Dict.t Z) (k : string) : Z :=
  match Dict.get k counts with Some n => n | None => 0 end.

(** [sub] occurs in [s]. *)
Definition occurs (sub s : string) : Prop :=
  exists pre post, s = (pre ++ sub ++ post)%string.

(** [rest] does not go on with a character of the class [p]. *)
Definition stops_at (p : ascii -> bool) (rest : string) : Prop :=
  match rest with
  | String c _ => p c = false
  | EmptyString => True
  end.

(** The text has, after [pre], the phrase "longer than " and then the
    digits [digits], all of them: what follows is not a digit. *)
Definition longer_than_at (q pre digits post : string) : Prop :=
  q = (pre ++ "longer than " ++ digits ++ post)%string /\
  digits <> EmptyString /\
  Str.all Str.is_digit digits = true /\
  stops_at Str.is_digit post.

Definition matches_longer_than (q : string) : Prop :=
  exists pre digits post, longer_than_at q pre digits post.

(** The text has, after [pre], the phrase "containing the letter", white
    space, and the letter [c]. *)
Definition containing_letter_at (q pre spaces : string) (c : ascii)
    (post : string) : Prop :=
  q = (pre ++ "containing the letter" ++ spaces ++ String c post)%string /\
  spaces <> EmptyString /\
  Str.all Str.is_space spaces = true /\
  Str.is_lower_letter c = true.

Definition matches_containing_letter (q : string) : Prop :=
  exists pre spaces c post, containing_letter_at q pre spaces c post.

(** One of the five phrases of [parse_query] is in the text. *)
Definition recognized (q : string) : Prop :=
  occurs "palind" q \/ occurs "single word" q \/ matches_longer_than q \/
  matches_containing_letter q \/ occurs "first vowel" q.

(** What the five rules give for the text [q] when [int] accepts the numeral
    after "longer than", each rule on its own field;
    "first vowel" comes after "containing the letter" and so has the last
    word on [contains_character]. *)
Definition rule_filters (q : string) : Filters.t :=
  Filters.mk
    (if Str.contains "palind" q then Some true else None)
    (option_map (fun group1 => Str.int_value group1 + 1)
       (search_longer_than q))
    None
    (if Str.contains "single word" q then Some 1 else None)
    (if Str.contains "first vowel" q then Some "a"%string
     else search_containing_letter q).

(** The decimal numeral of a natural number. *)
Definition decimal (n : nat) : string := Str.str_of_nat n.

(** The match [re.search] finds for [longer than (\d+)]: the leftmost place
    where the text has "longer than " and then digits, all the digits
    taken. *)
Definition first_longer_than (q pre digits post : string) : Prop :=
  longer_than_at q pre digits post /\
  forall pre' digits' post',
    longer_than_at q pre' digits' post' ->
    (String.length pre <= String.length pre')%nat.

(** The numeral that [parse_query] hands to [int], when there is one, is
    within the limit of [int]. *)
Definition numeral_within_limit (q : string) : Prop :=
  forall pre digits post,
    first_longer_than q pre digits post ->
    (String.length digits <= Str.max_str_digits)%nat.

(** The key under which [find_string] looks a token up: the token itself
    when it has the syntax of a fingerprint, the fingerprint of the token
    otherwise. *)
Definition lookup_key (token : string) : string :=
  if is_fingerprint token then token else fingerprint_of token.

(** Sum of the counts of a frequency map. *)
Definition sum_counts (counts : Dict.t Z) : Z :=
  fold_right Z.add 0 (Dict.values counts).

(** [\S] *)
Definition not_space (c : ascii) : bool := negb (Str.is_space c).

(** What the five criteria ask of a record, one by one. *)
Definition meets (is_palindrome : option bool)
    (min_length max_length word_count : option Z)
    (contains_character : option string) (item : StringRecord.t) : Prop :=
  let props := StringRecord.properties item in
  (forall b, is_palindrome = Some b -> StringProperties.is_palindrome props = b) /\
  (forall n, min_length = Some n -> n <= StringProperties.length props) /\
  (forall n, max_length = Some n -> StringProperties.length props <= n) /\
  (forall n, word_count = Some n -> StringProperties.word_count props = n) /\
  (forall s, contains_character = Some s -> s <> EmptyString ->
     Dict.mem (Str.lower s) (StringProperties.character_frequency_map props)
     = true).

(** A list is a subsequence of another: some elements dropped, the order of
    the others kept. *)
Inductive subsequence {A : Type} : list A -> list A -> Prop :=
| subseq_nil : subsequence [] []
| subseq_keep x l1 l2 : subsequence l1 l2 -> subsequence (x :: l1) (x :: l2)
| subseq_drop x l1 l2 : subsequence l1 l2 -> subsequence l1 (x :: l2).

(** The invariant of the store: keys are distinct, and each record sits
    under its own id, which is the fingerprint of its value, next to the
    properties computed from its value. *)
Definition store_ok (STORE : Store) : Prop :=
  NoDup (Dict.keys STORE) /\
  Forall (fun kv =>
            StringRecord.id (snd kv) = fst kv /\
            fst kv = fingerprint_of (StringRecord.value (snd kv)) /\
            StringRecord.properties (snd kv) =
              analyze_string (StringRecord.value (snd kv)))
         STORE.

(* ------------------------------------------------------------------ *)
(** * Proofs *)

Example sha_empty : SHA256.hexdigest (Str.encode EmptyString) =
  "e3b0c44298fc1c149afbf4c8996fb92427ae41e4649b934ca495991b7852b855".
Proof. vm_compute. reflexivity. Qed.

Example sha_abc : SHA256.hexdigest (Str.encode "abc") =
  "ba7816bf8f01cfea414140de5dae2223b00361a396177a9cb410ff61f20015ad".
Proof. vm_compute. reflexivity. Qed.

Example sha_a64 : SHA256.hexdigest (Str.encode
  "aaaaaaaaaaaaaaaaaaaaaaaaaaaaaaaaaaaaaaaaaaaaaaaaaaaaaaaaaaaaaaaa") =
  "ffe054fe7ae0cb6dc65c3af9b61d5209f439851db43d0ba5997337df154668eb".
Proof. vm_compute. reflexivity. Qed.

(** ** Strings *)

Lemma lower_char_idempotent (c : ascii) :
  Str.lower_char (Str.lower_char c) = Str.lower_char c.
Proof. destruct c as [[] [] [] [] [] [] [] []]; reflexivity. Qed.

Lemma lower_idempotent (s : string) : Str.lower (Str.lower s) = Str.lower s.
Proof.
  induction s as [|c s IH]; cbn [Str.lower]; [reflexivity|].
  now rewrite lower_char_idempotent, IH.
Qed.

Lemma normalize_idempotent (s : string) : normalize (normalize s) = normalize s.
Proof. apply lower_idempotent. Qed.

(** ** The digest is always 64 lowercase hexadecimal digits *)

Lemma hex_of_bits_hex (b3 b2 b1 b0 : bool) :
  Str.is_hex_lower (SHA256.hex_of_bits b3 b2 b1 b0) = true.
Proof. destruct b3, b2, b1, b0; reflexivity. Qed.

Lemma hex8_length (w : Z) (tail : string) :
  String.length (SHA256.hex8 w tail) = (8 + String.length tail)%nat.
Proof. reflexivity. Qed.

Lemma hex8_all (w : Z) (tail : string) :
  Str.all Str.is_hex_lower (SHA256.hex8 w tail) = Str.all Str.is_hex_lower tail.
Proof.
  unfold SHA256.hex8, SHA256.hex_at; cbn [Str.all].
  now rewrite !hex_of_bits_hex.
Qed.

Lemma hexdigest_is_fingerprint (msg : list Z) :
  is_fingerprint (SHA256.hexdigest msg) = true.
Proof.
  unfold is_fingerprint, SHA256.hexdigest.
  set (d := SHA256.digest msg).
  rewrite !hex8_length, !hex8_all. reflexivity.
Qed.

(** ** Dict *)

Lemma mem_get {V} (k : string) (d : Dict.t V) :
  Dict.mem k d = false <-> Dict.get k d = None.
Proof. unfold Dict.mem. destruct (Dict.get k d); split; congruence. Qed.

Lemma get_set_same {V} (k : string) (v : V) (d : Dict.t V) :
  Dict.get k (Dict.set k v d) = Some v.
Proof.
  induction d as [|[k' v'] d IH]; cbn.
  - now rewrite String.eqb_refl.
  - destruct (String.eqb k k') eqn:E; cbn; rewrite E; auto.
Qed.

Lemma set_absent {V} (k : string) (v : V) (d : Dict.t V) :
  Dict.get k d = None -> Dict.set k v d = d ++ [(k, v)].
Proof.
  induction d as [|[k' v'] d IH]; cbn; [reflexivity|].
  destruct (String.eqb k k'); [discriminate|].
  intros H. now rewrite IH.
Qed.

Lemma get_in_keys {V} (k : string) (v : V) (d : Dict.t V) :
  Dict.get k d = Some v -> In (k, v) d.
Proof.
  induction d as [|[k' v'] d IH]; cbn; [discriminate|].
  destruct (String.eqb k k') eqn:E.
  - apply String.eqb_eq in E. intros [= ->]. left. now subst.
  - intros H. right. auto.
Qed.

Lemma get_none_not_in {V} (k : string) (d : Dict.t V) :
  Dict.get k d = None <-> ~ In k (Dict.keys d).
Proof.
  induction d as [|[k' v'] d IH]; cbn.
  - tauto.
  - destruct (String.eqb k k') eqn:E.
    + apply String.eqb_eq in E. split; [discriminate|]. intros H. contradict H. auto.
    + apply String.eqb_neq in E. rewrite IH. split.
      * intros H [H1|H1]; [congruence|auto].
      * intros H H1. apply H. auto.
Qed.

Lemma in_get {V} (k : string) (v : V) (d : Dict.t V) :
  NoDup (Dict.keys d) -> In (k, v) d -> Dict.get k d = Some v.
Proof.
  induction d as [|[k' v'] d IH]; cbn; [tauto|].
  intros Hnd [H|H].
  - injection H as -> ->. now rewrite String.eqb_refl.
  - inversion Hnd as [|? ? Hnotin Hnd']; subst.
    destruct (String.eqb k k') eqn:E.
    + apply String.eqb_eq in E. subst k'. exfalso. apply Hnotin.
      change k with (fst (k, v)). now apply in_map.
    + auto.
Qed.

Lemma del_present {V} (k : string) (v : V) (d : Dict.t V) :
  Dict.get k d = Some v -> exists d', Dict.del k d = Some d'.
Proof.
  induction d as [|[k' v'] d IH]; cbn; [discriminate|].
  destruct (String.eqb k k'); [eauto|].
  intros H. destruct (IH H) as [d' ->]. eauto.
Qed.

Lemma del_subsequence {V} (k : string) (d d' : Dict.t V) :
  Dict.del k d = Some d' -> subsequence d' d.
Proof.
  revert d'. induction d as [|[k' v'] d IH]; cbn; [discriminate|].
  intros d'. destruct (String.eqb k k').
  - intros [= <-]. constructor. clear. induction d; constructor; auto.
  - destruct (Dict.del k d) as [d''|]; [|discriminate].
    intros [= <-]. constructor. auto.
Qed.

Lemma del_get_none {V} (k : string) (d d' : Dict.t V) :
  NoDup (Dict.keys d) -> Dict.del k d = Some d' -> Dict.get k d' = None.
Proof.
  revert d'. induction d as [|[k' v'] d IH]; cbn; [discriminate|].
  intros d' Hnd. inversion Hnd as [|? ? Hnotin Hnd']; subst.
  destruct (String.eqb k k') eqn:E.
  - apply String.eqb_eq in E. subst k'. intros [= <-].
    now apply get_none_not_in.
  - destruct (Dict.del k d) as [d''|] eqn:D; [|discriminate].
    intros [= <-]. cbn. rewrite E. auto.
Qed.

Lemma subsequence_in {A} (l1 l2 : list A) (x : A) :
  subsequence l1 l2 -> In x l1 -> In x l2.
Proof. induction 1; cbn; tauto. Qed.

Lemma subsequence_map {A B} (f : A -> B) (l1 l2 : list A) :
  subsequence l1 l2 -> subsequence (map f l1) (map f l2).
Proof. induction 1; cbn; constructor; auto. Qed.

Lemma subsequence_nodup {A} (l1 l2 : list A) :
  subsequence l1 l2 -> NoDup l2 -> NoDup l1.
Proof.
  induction 1; intros Hnd; auto; inversion Hnd; subst; auto.
  constructor; auto. intros Hin. eauto using subsequence_in.
Qed.

Lemma subsequence_forall {A} (P : A -> Prop) (l1 l2 : list A) :
  subsequence l1 l2 -> Forall P l2 -> Forall P l1.
Proof. induction 1; intros HF; auto; inversion HF; subst; auto. Qed.

(** ** The filter loop *)

Lemma apply_filters_loop_filter ip minl maxl wc cc strings results :
  apply_filters_loop ip minl maxl wc cc strings results =
  results ++ filter (passes ip minl maxl wc cc) strings.
Proof.
  revert results. induction strings as [|item rest IH]; intros results; cbn.
  - now rewrite app_nil_r.
  - rewrite IH. destruct (passes ip minl maxl wc cc item); [|reflexivity].
    now rewrite <- app_assoc.
Qed.

Lemma apply_filters_filter strings ip minl maxl wc cc :
  apply_filters strings ip minl maxl wc cc =
  filter (passes ip minl maxl wc cc) strings.
Proof. unfold apply_filters. now rewrite apply_filters_loop_filter. Qed.

Lemma filter_subsequence {A} (p : A -> bool) (l : list A) :
  subsequence (filter p l) l.
Proof.
  induction l as [|x l IH]; cbn; [constructor|].
  destruct (p x); constructor; assumption.
Qed.

Lemma passes_no_criteria item : passes None None None None None item = true.
Proof. reflexivity. Qed.

Lemma passes_empty_character ip minl maxl wc item :
  passes ip minl maxl wc (Some EmptyString) item = passes ip minl maxl wc None item.
Proof. reflexivity. Qed.

Lemma filter_all {A} (p : A -> bool) (l : list A) :
  (forall x, p x = true) -> filter p l = l.
Proof.
  intros Hp. induction l as [|x l IH]; cbn; [reflexivity|].
  now rewrite Hp, IH.
Qed.

(** ** The store *)

Lemma sha256_hash_analyze (value : string) :
  StringProperties.sha256_hash (analyze_string value) = fingerprint_of value.
Proof. reflexivity. Qed.

Lemma fingerprint_of_lower (s1 s2 : string) :
  Str.lower s1 = Str.lower s2 -> fingerprint_of s1 = fingerprint_of s2.
Proof. unfold fingerprint_of, normalize. now intros ->. Qed.

Lemma create_string_created now value STORE STORE' record :
  create_string now value STORE = (STORE', inr record) ->
  Dict.get (fingerprint_of value) STORE = None /\
  record = StringRecord.mk (fingerprint_of value) value (analyze_string value) now /\
  STORE' = Dict.set (fingerprint_of value) record STORE.
Proof.
  unfold create_string. rewrite sha256_hash_analyze.
  destruct (Dict.mem (fingerprint_of value) STORE) eqn:M.
  - unfold HTTPError. intros [= ]. 
  - apply mem_get in M. intros [= <- <-]. auto.
Qed.

Lemma create_string_absent now value STORE :
  Dict.get (fingerprint_of value) STORE = None ->
  let record :=
    StringRecord.mk (fingerprint_of value) value (analyze_string value) now in
  create_string now value STORE =
  (STORE ++ [(fingerprint_of value, record)], inr record).
Proof.
  intros G. unfold create_string. rewrite sha256_hash_analyze.
  apply mem_get in G as M. rewrite M. cbv zeta.
  now rewrite (set_absent _ _ _ G).
Qed.

Lemma create_string_present now value STORE :
  Dict.get (fingerprint_of value) STORE <> None ->
  create_string now value STORE = (STORE, HTTPError 409 "String already exists").
Proof.
  intros G. unfold create_string. rewrite sha256_hash_analyze.
  destruct (Dict.mem (fingerprint_of value) STORE) eqn:M; [reflexivity|].
  apply mem_get in M. contradiction.
Qed.

Lemma find_string_fingerprint token STORE :
  is_fingerprint token = true -> find_string token STORE = Dict.get token STORE.
Proof. unfold find_string. now intros ->. Qed.

Lemma find_string_by_value token STORE record :
  is_fingerprint token = false ->
  Dict.get (fingerprint_of token) STORE = Some record ->
  find_string token STORE = Some record.
Proof.
  unfold find_string, fingerprint_of. intros -> G. now rewrite G.
Qed.

Lemma store_ok_create now value STORE :
  store_ok STORE -> store_ok (fst (create_string now value STORE)).
Proof.
  intros [Hnd Hall].
  destruct (Dict.get (fingerprint_of value) STORE) eqn:G.
  - rewrite create_string_present by congruence. now split.
  - rewrite (create_string_absent now _ _ G). cbn [fst]. split.
    + unfold Dict.keys. rewrite map_app. cbn.
      apply NoDup_app; [assumption|repeat constructor; cbn; tauto|].
      intros k Hk [<-|[]]. now apply get_none_not_in in G.
    + apply Forall_app. split; [assumption|]. repeat constructor.
Qed.

Lemma store_ok_delete token STORE :
  store_ok STORE -> store_ok (fst (delete_string token STORE)).
Proof.
  intros [Hnd Hall]. unfold delete_string.
  destruct (find_string token STORE) as [record|]; [|now split].
  destruct (Dict.del (StringRecord.id record) STORE) as [STORE'|] eqn:D;
    [|now split].
  cbn [fst]. apply del_subsequence in D. split.
  - eapply subsequence_nodup; [|eassumption]. now apply subsequence_map.
  - eapply subsequence_forall; eassumption.
Qed.

Lemma reachable_store_ok STORE : reachable STORE -> store_ok STORE.
Proof.
  induction 1.
  - split; constructor.
  - now apply store_ok_create.
  - now apply store_ok_delete.
Qed.

(** ** Counting characters *)

Lemma mem_existsb {V} (k : string) (d : Dict.t V) :
  Dict.mem k d = existsb (String.eqb k) (Dict.keys d).
Proof.
  unfold Dict.mem. induction d as [|[k' v'] d IH]; cbn; [reflexivity|].
  destruct (String.eqb k k'); auto.
Qed.

Lemma keys_set {V} (k : string) (v : V) (d : Dict.t V) :
  Dict.keys (Dict.set k v d) =
  if Dict.mem k d then Dict.keys d else Dict.keys d ++ [k].
Proof.
  unfold Dict.mem, Dict.keys.
  induction d as [|[k' v'] d IH]; cbn; [reflexivity|].
  destruct (String.eqb k k') eqn:E; cbn; [reflexivity|].
  rewrite IH. now destruct (Dict.get k d).
Qed.

Lemma get_set_other {V} (k k' : string) (v : V) (d : Dict.t V) :
  k <> k' -> Dict.get k' (Dict.set k v d) = Dict.get k' d.
Proof.
  intros Hne. induction d as [|[k0 v0] d IH]; cbn.
  - apply not_eq_sym in Hne. apply String.eqb_neq in Hne. now rewrite Hne.
  - destruct (String.eqb k k0) eqn:E; cbn.
    + apply String.eqb_eq in E. subst k0.
      apply not_eq_sym in Hne. apply String.eqb_neq in Hne. now rewrite Hne.
    + now rewrite IH.
Qed.

Lemma char_key_eqb (c c' : ascii) :
  String.eqb (char_key c) (char_key c') = Ascii.eqb c c'.
Proof. unfold char_key. cbn. now destruct (Ascii.eqb c c'). Qed.

Lemma existsb_char_key (c : ascii) (seen : list ascii) :
  existsb (String.eqb (char_key c)) (map char_key seen) =
  existsb (Ascii.eqb c) seen.
Proof.
  induction seen as [|c' seen IH]; cbn [existsb map]; [reflexivity|].
  now rewrite char_key_eqb, IH.
Qed.

Lemma Counter_keys (s : string) : forall seen counts,
  Dict.keys counts = map char_key seen ->
  Dict.keys (Counter s counts) = map char_key (set_of s seen).
Proof.
  induction s as [|c s IH]; intros seen counts K; cbn [Counter set_of];
    [assumption|].
  apply IH. fold (char_key c). rewrite keys_set, mem_existsb, K, existsb_char_key.
  destruct (existsb (Ascii.eqb c) seen); [reflexivity|].
  now rewrite map_app.
Qed.

Lemma set_of_nodup (s : string) : forall seen,
  NoDup seen -> NoDup (set_of s seen).
Proof.
  induction s as [|c s IH]; intros seen Hnd; cbn [set_of]; [assumption|].
  apply IH. destruct (existsb (Ascii.eqb c) seen) eqn:E; [assumption|].
  apply NoDup_app; [assumption|repeat constructor; cbn; tauto|].
  intros x Hx [<-|[]].
  assert (existsb (Ascii.eqb c) seen = true); [|congruence].
  apply existsb_exists. exists c. split; [assumption|apply Ascii.eqb_refl].
Qed.

Lemma char_key_injective : forall c c', char_key c = char_key c' -> c = c'.
Proof. unfold char_key. now intros c c' [= ->]. Qed.

Lemma nodup_char_keys (seen : list ascii) :
  NoDup seen -> NoDup (map char_key seen).
Proof.
  induction 1 as [|c seen Hnotin Hnd IH]; cbn; constructor; [|assumption].
  intros Hin. apply in_map_iff in Hin as (c' & Heq & Hin).
  apply char_key_injective in Heq. now subst c'.
Qed.

Lemma Counter_counts (s : string) : forall counts c,
  count_default (Counter s counts) (char_key c) =
  count_default counts (char_key c) + count_char c s.
Proof.
  induction s as [|c0 s IH]; intros counts c; cbn [Counter count_char]; [lia|].
  rewrite IH. fold (char_key c0). fold (count_default counts (char_key c0)).
  unfold count_default at 1.
  destruct (Ascii.eqb c c0) eqn:E.
  - apply Ascii.eqb_eq in E. subst c0. rewrite get_set_same. lia.
  - rewrite get_set_other.
    + fold (count_default counts (char_key c)). lia.
    + intros Heq. apply char_key_injective in Heq. subst c0.
      now rewrite Ascii.eqb_refl in E.
Qed.

Lemma get_some_in_keys {V} (k : string) (v : V) (d : Dict.t V) :
  Dict.get k d = Some v -> In k (Dict.keys d).
Proof.
  intros G. apply get_in_keys in G.
  change k with (fst (k, v)). now apply in_map.
Qed.

(** ** Matching: the scanners against what they are meant to find *)

Lemma strip_prefix_some (p : string) : forall s r,
  Str.strip_prefix p s = Some r <-> s = (p ++ r)%string.
Proof.
  induction p as [|a p IH]; intros s r; cbn.
  - split; [intros [= ->]|intros ->]; reflexivity.
  - destruct s as [|b s]; [split; discriminate|].
    destruct (Ascii.eqb a b) eqn:E.
    + apply Ascii.eqb_eq in E. subst b. rewrite IH.
      split; [intros ->|intros [= ->]]; reflexivity.
    + split; [discriminate|]. intros [= -> _].
      now rewrite Ascii.eqb_refl in E.
Qed.

Lemma contains_unfold (sub s : string) :
  Str.contains sub s =
  match Str.strip_prefix sub s with
  | Some _ => true
  | None =>
      match s with
      | EmptyString => false
      | String _ s' => Str.contains sub s'
      end
  end.
Proof. destruct s; reflexivity. Qed.

Lemma contains_occurs (sub s : string) :
  Str.contains sub s = true <-> occurs sub s.
Proof.
  split.
  - induction s as [|c s IH]; rewrite contains_unfold;
      destruct (Str.strip_prefix sub _) as [r|] eqn:P;
      try (apply strip_prefix_some in P; intros _;
           exists EmptyString, r; exact P).
    + discriminate.
    + intros H. destruct (IH H) as (pre & post & ->).
      exists (String c pre), post. reflexivity.
  - intros (pre & post & ->).
    induction pre as [|c pre IH]; rewrite contains_unfold.
    + cbn [append].
      now rewrite (proj2 (strip_prefix_some sub (sub ++ post) post) eq_refl).
    + destruct (Str.strip_prefix sub _); [reflexivity|]. exact IH.
Qed.

Lemma not_occurs (sub s : string) :
  Str.contains sub s = false <-> ~ occurs sub s.
Proof.
  rewrite <- contains_occurs. destruct (Str.contains sub s); split;
    congruence.
Qed.

Lemma span_spec (p : ascii -> bool) (s : string) :
  s = (fst (Str.span p s) ++ snd (Str.span p s))%string /\
  Str.all p (fst (Str.span p s)) = true /\
  stops_at p (snd (Str.span p s)).
Proof.
  induction s as [|c s (IH1 & IH2 & IH3)]; cbn [Str.span].
  - repeat split.
  - destruct (p c) eqn:E.
    + destruct (Str.span p s) as [run rest]. cbn in *.
      rewrite E, IH2. repeat split; [congruence|assumption].
    + cbn. repeat split. assumption.
Qed.

Lemma span_app (p : ascii -> bool) (run rest : string) :
  Str.all p run = true -> stops_at p rest ->
  Str.span p (run ++ rest) = (run, rest).
Proof.
  intros Hall Hstop. induction run as [|c run IH]; cbn in *.
  - destruct rest as [|c rest]; [reflexivity|]. cbn in *. now rewrite Hstop.
  - apply andb_prop in Hall as [Hc Hall]. now rewrite Hc, IH.
Qed.

(** *** [longer than (\d+)] *)

Lemma match_longer_than_sound (q digits : string) :
  match_longer_than q = Some digits ->
  exists post, longer_than_at q EmptyString digits post.
Proof.
  unfold match_longer_than.
  destruct (Str.strip_prefix "longer than " q) as [rest|] eqn:P; [|discriminate].
  apply strip_prefix_some in P.
  destruct (span_spec Str.is_digit rest) as (S1 & S2 & S3).
  destruct (fst (Str.span Str.is_digit rest)) as [|d ds] eqn:F; [discriminate|].
  intros [= <-]. exists (snd (Str.span Str.is_digit rest)).
  repeat split; try assumption; [|discriminate].
  rewrite <- S1. exact P.
Qed.

Lemma match_longer_than_complete (q digits post : string) :
  longer_than_at q EmptyString digits post ->
  match_longer_than q = Some digits.
Proof.
  intros (Hq & Hne & Hall & Hstop). unfold match_longer_than.
  change (q = ("longer than " ++ (digits ++ post))%string) in Hq.
  apply strip_prefix_some in Hq. rewrite Hq.
  rewrite (span_app _ _ _ Hall Hstop). cbn [fst].
  destruct digits; [contradiction|reflexivity].
Qed.

Lemma search_longer_than_unfold (q : string) :
  search_longer_than q =
  match match_longer_than q, q with
  | Some group1, _ => Some group1
  | None, EmptyString => None
  | None, String _ q' => search_longer_than q'
  end.
Proof. destruct q; reflexivity. Qed.

Lemma longer_than_at_tail (a : ascii) (q pre digits post : string) :
  longer_than_at (String a q) (String a pre) digits post <->
  longer_than_at q pre digits post.
Proof.
  unfold longer_than_at. cbn [append].
  split; intros (Hq & H); (split; [|exact H]); congruence.
Qed.

Lemma longer_than_at_head (q pre digits post : string) :
  longer_than_at q pre digits post ->
  match pre with
  | EmptyString => True
  | String a pre' => exists q', q = String a q'
  end.
Proof. intros (-> & _). destruct pre; cbn; eauto. Qed.

Lemma search_longer_than_sound (q : string) : forall digits,
  search_longer_than q = Some digits ->
  exists pre post, longer_than_at q pre digits post.
Proof.
  induction q as [|a q IH]; intros digits; rewrite search_longer_than_unfold;
    destruct (match_longer_than _) as [g|] eqn:M; try discriminate;
    try (intros [= <-]; apply match_longer_than_sound in M as [post M];
         now exists EmptyString, post).
  intros H. destruct (IH _ H) as (pre & post & Hat).
  exists (String a pre), post. now apply longer_than_at_tail.
Qed.

Lemma search_longer_than_leftmost (pre : string) : forall q digits post,
  longer_than_at q pre digits post ->
  (forall pre' digits' post',
      longer_than_at q pre' digits' post' ->
      (String.length pre <= String.length pre')%nat) ->
  search_longer_than q = Some digits.
Proof.
  induction pre as [|a pre IH]; intros q digits post Hat Hleft;
    rewrite search_longer_than_unfold.
  - now rewrite (match_longer_than_complete _ _ _ Hat).
  - destruct (match_longer_than q) as [g|] eqn:M.
    + apply match_longer_than_sound in M as [post' M].
      apply Hleft in M. cbn in M. lia.
    + destruct (longer_than_at_head _ _ _ _ Hat) as [q' ->].
      apply (IH _ _ _ (proj1 (longer_than_at_tail _ _ _ _ _) Hat)).
      intros pre' digits' post' Hat'.
      apply (proj2 (longer_than_at_tail a _ _ _ _)), Hleft in Hat'.
      cbn in Hat'. lia.
Qed.

Lemma search_longer_than_found (pre : string) : forall q digits post,
  longer_than_at q pre digits post -> search_longer_than q <> None.
Proof.
  induction pre as [|a pre IH]; intros q digits post Hat;
    rewrite search_longer_than_unfold.
  - now rewrite (match_longer_than_complete _ _ _ Hat).
  - destruct (match_longer_than q) as [g|]; [discriminate|].
    destruct (longer_than_at_head _ _ _ _ Hat) as [q' ->].
    exact (IH _ _ _ (proj1 (longer_than_at_tail _ _ _ _ _) Hat)).
Qed.

Lemma search_longer_than_none (q : string) :
  search_longer_than q = None <-> ~ matches_longer_than q.
Proof.
  split.
  - intros H (pre & digits & post & Hat).
    now apply search_longer_than_found in Hat.
  - intros H. destruct (search_longer_than q) as [digits|] eqn:S; [|reflexivity].
    apply search_longer_than_sound in S as (pre & post & Hat).
    exfalso. apply H. now exists pre, digits, post.
Qed.

Lemma drop_app (pre rest : string) :
  Str.drop (String.length pre) (pre ++ rest) = rest.
Proof. induction pre as [|a pre IH]; cbn; [now destruct rest|exact IH]. Qed.

Lemma longer_than_at_drop (q pre digits post : string) :
  longer_than_at q pre digits post ->
  match_longer_than (Str.drop (String.length pre) q) = Some digits.
Proof.
  intros (Hq & H). subst q. rewrite drop_app.
  apply (match_longer_than_complete _ _ post). now split.
Qed.

(** *** [containing the letter\s+([a-z])] *)

Lemma lower_letter_not_space (c : ascii) :
  Str.is_lower_letter c = true -> Str.is_space c = false.
Proof.
  destruct c as [[] [] [] [] [] [] [] []]; vm_compute; intros; congruence.
Qed.

Lemma match_containing_letter_sound (q group1 : string) :
  match_containing_letter q = Some group1 ->
  exists spaces c post,
    group1 = char_key c /\ containing_letter_at q EmptyString spaces c post.
Proof.
  unfold match_containing_letter.
  destruct (Str.strip_prefix "containing the letter" q) as [rest|] eqn:P;
    [|discriminate].
  apply strip_prefix_some in P.
  destruct (span_spec Str.is_space rest) as (S1 & S2 & S3).
  destruct (Str.span Str.is_space rest) as [[|s spaces] [|c post]];
    try discriminate.
  destruct (Str.is_lower_letter c) eqn:L; [|discriminate].
  intros [= <-]. exists (String s spaces), c, post. cbn [fst snd] in *.
  repeat split; try assumption; [|discriminate].
  rewrite <- S1. exact P.
Qed.

Lemma match_containing_letter_complete (q spaces : string) (c : ascii)
    (post : string) :
  containing_letter_at q EmptyString spaces c post ->
  match_containing_letter q = Some (char_key c).
Proof.
  intros (Hq & Hne & Hall & Hc). unfold match_containing_letter.
  change (q = ("containing the letter" ++ (spaces ++ String c post))%string)
    in Hq.
  apply strip_prefix_some in Hq. rewrite Hq.
  rewrite (span_app _ _ (String c post) Hall (lower_letter_not_space c Hc)).
  destruct spaces; [contradiction|]. now rewrite Hc.
Qed.

Lemma search_containing_letter_unfold (q : string) :
  search_containing_letter q =
  match match_containing_letter q, q with
  | Some group1, _ => Some group1
  | None, EmptyString => None
  | None, String _ q' => search_containing_letter q'
  end.
Proof. destruct q; reflexivity. Qed.

Lemma containing_letter_at_tail (a : ascii) (q pre spaces : string) (c : ascii)
    (post : string) :
  containing_letter_at (String a q) (String a pre) spaces c post <->
  containing_letter_at q pre spaces c post.
Proof.
  unfold containing_letter_at. cbn [append].
  split; intros (Hq & H); (split; [|exact H]); congruence.
Qed.

Lemma containing_letter_at_head (q pre spaces : string) (c : ascii)
    (post : string) :
  containing_letter_at q pre spaces c post ->
  match pre with
  | EmptyString => True
  | String a pre' => exists q', q = String a q'
  end.
Proof. intros (-> & _). destruct pre; cbn; eauto. Qed.

Lemma search_containing_letter_sound (q : string) : forall group1,
  search_containing_letter q = Some group1 ->
  exists pre spaces c post,
    group1 = char_key c /\ containing_letter_at q pre spaces c post.
Proof.
  induction q as [|a q IH]; intros group1;
    rewrite search_containing_letter_unfold;
    destruct (match_containing_letter _) as [g|] eqn:M; try discriminate;
    try (intros [= <-];
         apply match_containing_letter_sound in M as (spaces & c & post & E & M);
         now exists EmptyString, spaces, c, post).
  intros H. destruct (IH _ H) as (pre & spaces & c & post & E & Hat).
  exists (String a pre), spaces, c, post. split; [assumption|].
  now apply containing_letter_at_tail.
Qed.

Lemma search_containing_letter_leftmost (pre : string) :
  forall q spaces c post,
  containing_letter_at q pre spaces c post ->
  (forall pre' spaces' c' post',
      containing_letter_at q pre' spaces' c' post' ->
      (String.length pre <= String.length pre')%nat) ->
  search_containing_letter q = Some (char_key c).
Proof.
  induction pre as [|a pre IH]; intros q spaces c post Hat Hleft;
    rewrite search_containing_letter_unfold.
  - now rewrite (match_containing_letter_complete _ _ _ _ Hat).
  - destruct (match_containing_letter q) as [g|] eqn:M.
    + apply match_containing_letter_sound in M as (spaces' & c' & post' & _ & M).
      apply Hleft in M. cbn in M. lia.
    + destruct (containing_letter_at_head _ _ _ _ _ Hat) as [q' ->].
      apply (IH _ _ _ _ (proj1 (containing_letter_at_tail _ _ _ _ _ _) Hat)).
      intros pre' spaces' c' post' Hat'.
      apply (proj2 (containing_letter_at_tail a _ _ _ _ _)), Hleft in Hat'.
      cbn in Hat'. lia.
Qed.

Lemma search_containing_letter_found (pre : string) : forall q spaces c post,
  containing_letter_at q pre spaces c post ->
  search_containing_letter q <> None.
Proof.
  induction pre as [|a pre IH]; intros q spaces c post Hat;
    rewrite search_containing_letter_unfold.
  - now rewrite (match_containing_letter_complete _ _ _ _ Hat).
  - destruct (match_containing_letter q) as [g|]; [discriminate|].
    destruct (containing_letter_at_head _ _ _ _ _ Hat) as [q' ->].
    exact (IH _ _ _ _ (proj1 (containing_letter_at_tail _ _ _ _ _ _) Hat)).
Qed.

Lemma search_containing_letter_none (q : string) :
  search_containing_letter q = None <-> ~ matches_containing_letter q.
Proof.
  split.
  - intros H (pre & spaces & c & post & Hat).
    now apply search_containing_letter_found in Hat.
  - intros H.
    destruct (search_containing_letter q) as [g|] eqn:S; [|reflexivity].
    apply search_containing_letter_sound in S as (pre & sp & c & post & _ & Hat).
    exfalso. apply H. now exists pre, sp, c, post.
Qed.

(** *** [parse_query], rule by rule *)

Lemma search_longer_than_first (q : string) : forall digits,
  search_longer_than q = Some digits ->
  exists pre post, first_longer_than q pre digits post.
Proof.
  induction q as [|a q IH]; intros digits; rewrite search_longer_than_unfold;
    destruct (match_longer_than _) as [g|] eqn:M; try discriminate;
    try (intros [= <-]; apply match_longer_than_sound in M as [post M];
         exists EmptyString, post; split; [exact M|intros; cbn; lia]).
  intros H. destruct (IH _ H) as (pre & post & Hat & Hleft).
  exists (String a pre), post. split; [now apply longer_than_at_tail|].
  intros pre' digits' post' Hat'. destruct pre' as [|a' pre'].
  - apply match_longer_than_complete in Hat'. congruence.
  - destruct (longer_than_at_head _ _ _ _ Hat') as [q' E].
    injection E as <- <-.
    apply (proj1 (longer_than_at_tail _ _ _ _ _)), Hleft in Hat'.
    cbn. lia.
Qed.

Lemma search_longer_than_of_first (q pre digits post : string) :
  first_longer_than q pre digits post -> search_longer_than q = Some digits.
Proof. intros [Hat Hleft]. exact (search_longer_than_leftmost _ _ _ _ Hat Hleft). Qed.

Lemma int_within_limit (ds : string) :
  (String.length ds <= Str.max_str_digits)%nat ->
  Str.int ds = inr (Str.int_value ds).
Proof.
  intros H. unfold Str.int. apply Nat.leb_le in H. now rewrite H.
Qed.

Lemma int_past_limit (ds : string) :
  (Str.max_str_digits < String.length ds)%nat ->
  Str.int ds = inl (Str.int_error ds).
Proof.
  intros H. unfold Str.int. apply Nat.leb_gt in H. now rewrite H.
Qed.

Lemma parse_query_rules (query : string) :
  parse_query query =
  match search_longer_than (Str.strip (Str.lower query)) with
  | Some group1 =>
      match Str.int group1 with
      | inl msg => inl (ValueError msg)
      | inr _ => inr (rule_filters (Str.strip (Str.lower query)))
      end
  | None =>
      if Filters.is_empty (rule_filters (Str.strip (Str.lower query)))
      then inl (ValueError "Couldn't understand the query.")
      else inr (rule_filters (Str.strip (Str.lower query)))
  end.
Proof.
  unfold parse_query, rule_filters.
  destruct (search_longer_than _) as [group1|].
  - unfold Str.int.
    destruct (String.length group1 <=? Str.max_str_digits)%nat;
      [|reflexivity].
    destruct (Str.contains "palind" _), (Str.contains "single word" _),
      (search_containing_letter _), (Str.contains "first vowel" _);
      reflexivity.
  - destruct (Str.contains "palind" _), (Str.contains "single word" _),
      (search_containing_letter _), (Str.contains "first vowel" _);
      reflexivity.
Qed.

Lemma parse_query_within_limit (query : string) :
  numeral_within_limit (Str.strip (Str.lower query)) ->
  parse_query query =
  if Filters.is_empty (rule_filters (Str.strip (Str.lower query)))
  then inl (ValueError "Couldn't understand the query.")
  else inr (rule_filters (Str.strip (Str.lower query))).
Proof.
  intros Hlimit. rewrite parse_query_rules.
  destruct (search_longer_than _) as [group1|] eqn:S; [|reflexivity].
  destruct (search_longer_than_first _ _ S) as (pre & post & Hfirst).
  rewrite (int_within_limit _ (Hlimit _ _ _ Hfirst)).
  unfold rule_filters. rewrite S.
  now destruct (Str.contains "palind" _).
Qed.

Lemma parse_query_past_limit (query pre digits post : string) :
  first_longer_than (Str.strip (Str.lower query)) pre digits post ->
  (Str.max_str_digits < String.length digits)%nat ->
  parse_query query = inl (ValueError (Str.int_error digits)).
Proof.
  intros Hfirst Hlong. rewrite parse_query_rules.
  rewrite (search_longer_than_of_first _ _ _ _ Hfirst).
  now rewrite (int_past_limit _ Hlong).
Qed.

Lemma rule_is_palindrome (q : string) :
  Filters.is_palindrome (rule_filters q) = Some true <-> occurs "palind" q.
Proof.
  rewrite <- contains_occurs. cbn.
  destruct (Str.contains "palind" q); split; congruence.
Qed.

Lemma rule_word_count (q : string) :
  Filters.word_count (rule_filters q) = Some 1 <-> occurs "single word" q.
Proof.
  rewrite <- contains_occurs. cbn.
  destruct (Str.contains "single word" q); split; congruence.
Qed.

Lemma rule_min_length (q : string) :
  (exists n, Filters.min_length (rule_filters q) = Some n) <->
  matches_longer_than q.
Proof.
  cbn. destruct (search_longer_than q) as [group1|] eqn:S; cbn.
  - split; [intros _|eauto].
    apply search_longer_than_sound in S as (pre & post & Hat).
    now exists pre, group1, post.
  - split; [intros [n [=]]|].
    intros H. now apply search_longer_than_none in S.
Qed.

Lemma rules_empty (q : string) :
  Filters.is_empty (rule_filters q) = true <-> ~ recognized q.
Proof.
  unfold rule_filters, recognized. split.
  - intros E.
    destruct (Str.contains "palind" q) eqn:E1; [discriminate E|].
    destruct (search_longer_than q) eqn:E2; [discriminate E|].
    destruct (Str.contains "single word" q) eqn:E3; [discriminate E|].
    destruct (Str.contains "first vowel" q) eqn:E4; [discriminate E|].
    destruct (search_containing_letter q) eqn:E5; [discriminate E|].
    apply not_occurs in E1, E3, E4.
    apply search_longer_than_none in E2.
    apply search_containing_letter_none in E5. tauto.
  - intros Hn.
    destruct (Str.contains "palind" q) eqn:E1;
      [exfalso; apply Hn; left; now apply contains_occurs|].
    destruct (search_longer_than q) as [g|] eqn:E2.
    { exfalso. apply Hn. right. right. left.
      apply search_longer_than_sound in E2 as (pre & post & Hat).
      now exists pre, g, post. }
    destruct (Str.contains "single word" q) eqn:E3;
      [exfalso; apply Hn; right; left; now apply contains_occurs|].
    destruct (Str.contains "first vowel" q) eqn:E4;
      [exfalso; apply Hn; do 4 right; now apply contains_occurs|].
    destruct (search_containing_letter q) as [g|] eqn:E5; [|reflexivity].
    exfalso. apply Hn. do 3 right. left.
    apply search_containing_letter_sound in E5 as (pre & sp & c & post & _ & Hat).
    now exists pre, sp, c, post.
Qed.

Lemma search_longer_than_matches (q group1 : string) :
  search_longer_than q = Some group1 -> matches_longer_than q.
Proof.
  intros S. apply search_longer_than_sound in S as (pre & post & Hat).
  now exists pre, group1, post.
Qed.

Lemma search_containing_letter_matches (q group1 : string) :
  search_containing_letter q = Some group1 -> matches_containing_letter q.
Proof.
  intros S.
  apply search_containing_letter_sound in S as (pre & sp & c & post & _ & Hat).
  now exists pre, sp, c, post.
Qed.

Lemma rules_not_empty (q : string) :
  Filters.is_empty (rule_filters q) = false -> recognized q.
Proof.
  unfold rule_filters, recognized.
  destruct (Str.contains "palind" q) eqn:E1;
    [intros _; left; now apply contains_occurs|].
  destruct (search_longer_than q) as [g|] eqn:E2;
    [intros _; right; right; left; now apply search_longer_than_matches in E2|].
  destruct (Str.contains "single word" q) eqn:E3;
    [intros _; right; left; now apply contains_occurs|].
  destruct (Str.contains "first vowel" q) eqn:E4;
    [intros _; do 4 right; now apply contains_occurs|].
  destruct (search_containing_letter q) as [g|] eqn:E5; [|discriminate].
  intros _. do 3 right. left.
  now apply search_containing_letter_matches in E5.
Qed.

(** *** Numerals *)

Lemma int_acc_of_uint (d : Decimal.uint) : forall acc : nat,
  Str.int_acc (Z.of_nat acc) (DecimalString.NilEmpty.string_of_uint d) =
  Z.of_nat (Nat.of_uint_acc d acc).
Proof.
  induction d as [|d IH|d IH|d IH|d IH|d IH|d IH|d IH|d IH|d IH|d IH];
    intros acc;
    cbn [DecimalString.NilEmpty.string_of_uint Nat.of_uint_acc Str.int_acc];
    [reflexivity|..];
    rewrite <- IH; f_equal; rewrite Nat.tail_mul_spec;
    match goal with
    | |- context [Str.ord ?c] =>
        let n := eval vm_compute in (Str.ord c) in
        change (Str.ord c) with n
    end; lia.
Qed.

Lemma int_decimal (n : nat) : Str.int_value (decimal n) = Z.of_nat n.
Proof.
  unfold Str.int_value, decimal, Str.str_of_nat.
  rewrite (int_acc_of_uint _ 0). f_equal. apply DecimalNat.Unsigned.of_to.
Qed.

Lemma digits_of_uint (d : Decimal.uint) :
  Str.all Str.is_digit (DecimalString.NilEmpty.string_of_uint d) = true.
Proof.
  induction d; cbn [DecimalString.NilEmpty.string_of_uint Str.all]; [reflexivity|..];
    rewrite IHd; reflexivity.
Qed.

Lemma decimal_nonempty (n : nat) : decimal n <> EmptyString.
Proof.
  unfold decimal, Str.str_of_nat. intros H.
  assert (Nat.to_uint n = Decimal.Nil) as E
    by (destruct (Nat.to_uint n); [reflexivity|discriminate..]).
  pose proof (DecimalNat.Unsigned.to_of (Nat.to_uint n)) as T.
  rewrite DecimalNat.Unsigned.of_to, E in T. revert T. cbn. discriminate.
Qed.

(* ------------------------------------------------------------------ *)
(** * The claims *)

(** C1.  Two values with the same lowercase folding get the same content
    fingerprint, which is the 64 lowercase hexadecimal digits of the SHA-256
    of the encoded normalized value; and once one of them has been created,
    creating the other is refused with 409 and the store is left as it
    was. *)
Theorem same_folding_same_fingerprint :
  forall s1 s2 : string,
    Str.lower s1 = Str.lower s2 ->
    StringProperties.sha256_hash (analyze_string s1) =
      StringProperties.sha256_hash (analyze_string s2) /\
    StringProperties.sha256_hash (analyze_string s1) =
      SHA256.hexdigest (Str.encode (Str.lower s1)) /\
    is_fingerprint (StringProperties.sha256_hash (analyze_string s1)) = true /\
    forall now1 now2 STORE STORE' record,
      create_string now1 s1 STORE = (STORE', inr record) ->
      create_string now2 s2 STORE' =
        (STORE', HTTPError 409 "String already exists").
Proof.
  intros s1 s2 Hfold. rewrite !sha256_hash_analyze.
  repeat split.
  - now apply fingerprint_of_lower.
  - apply hexdigest_is_fingerprint.
  - intros now1 now2 STORE STORE' record Hcreate.
    apply create_string_created in Hcreate as (_ & _ & ->).
    apply create_string_present.
    rewrite <- (fingerprint_of_lower _ _ Hfold), get_set_same. discriminate.
Qed.

Lemma same_folding_same_fingerprint_witness :
  Str.lower "Hello" = Str.lower "HELLO" /\
  exists STORE' record,
    create_string "2025-01-01T00:00:00Z" "Hello" [] = (STORE', inr record) /\
    create_string "2025-01-02T00:00:00Z" "HELLO" STORE' =
      (STORE', HTTPError 409 "String already exists").
Proof.
  split; [reflexivity|].
  destruct (same_folding_same_fingerprint "Hello" "HELLO" eq_refl)
    as (_ & _ & _ & H).
  pose proof (create_string_absent "2025-01-01T00:00:00Z" "Hello" [] eq_refl)
    as Hcreate.
  cbv zeta in Hcreate.
  eexists _, _. split; [exact Hcreate|].
  exact (H _ "2025-01-02T00:00:00Z" _ _ _ Hcreate).
Defined.

(** C2, as stated, fails: a value that itself has the syntax of a fingerprint
    is created, and then neither it nor its lowercase form resolves. *)
Lemma resolve_by_value_counterexample :
  let value :=
    "aaaaaaaaaaaaaaaaaaaaaaaaaaaaaaaaaaaaaaaaaaaaaaaaaaaaaaaaaaaaaaaa"%string in
  let record :=
    StringRecord.mk
      "ffe054fe7ae0cb6dc65c3af9b61d5209f439851db43d0ba5997337df154668eb"
      value (analyze_string value) "2025-01-01T00:00:00Z" in
  let STORE' :=
    [("ffe054fe7ae0cb6dc65c3af9b61d5209f439851db43d0ba5997337df154668eb"%string,
      record)] in
  create_string "2025-01-01T00:00:00Z" value [] = (STORE', inr record) /\
  find_string value STORE' = None /\
  find_string (Str.lower value) STORE' = None /\
  get_string value STORE' = HTTPError 404 "String not found".
Proof. vm_compute. repeat split. Qed.

(** C2, amended.  After a successful create, the id of the record resolves
    to the record; the value as submitted does too unless it has the syntax
    of a fingerprint, and so does its lowercase form unless that has the
    syntax of a fingerprint. *)
Theorem resolve_after_create :
  forall now value STORE STORE' record,
    create_string now value STORE = (STORE', inr record) ->
    find_string (StringRecord.id record) STORE' = Some record /\
    (is_fingerprint value = false ->
     find_string value STORE' = Some record) /\
    (is_fingerprint (Str.lower value) = false ->
     find_string (Str.lower value) STORE' = Some record).
Proof.
  intros now value STORE STORE' record Hcreate.
  apply create_string_created in Hcreate as (_ & Hrecord & ->).
  assert (Dict.get (fingerprint_of value)
            (Dict.set (fingerprint_of value) record STORE) = Some record) as G
    by apply get_set_same.
  repeat split.
  - rewrite find_string_fingerprint; subst record; cbn [StringRecord.id];
      [exact G|apply hexdigest_is_fingerprint].
  - intros Hsyntax. now apply find_string_by_value.
  - intros Hsyntax. apply find_string_by_value; [assumption|].
    unfold fingerprint_of at 1. now rewrite normalize_idempotent.
Qed.

Lemma resolve_after_create_witness :
  exists STORE' record,
    create_string "2025-01-01T00:00:00Z" "Hello World" [] = (STORE', inr record) /\
    is_fingerprint "Hello World" = false /\
    is_fingerprint (Str.lower "Hello World") = false /\
    find_string (StringRecord.id record) STORE' = Some record /\
    find_string "Hello World" STORE' = Some record /\
    find_string "hello world" STORE' = Some record.
Proof.
  pose proof
    (create_string_absent "2025-01-01T00:00:00Z" "Hello World" [] eq_refl)
    as Hcreate.
  cbv zeta in Hcreate.
  destruct (resolve_after_create _ _ _ _ _ Hcreate) as (Hid & Hvalue & Hlower).
  eexists _, _. split; [exact Hcreate|].
  split; [reflexivity|]. split; [reflexivity|].
  split; [exact Hid|]. split; [exact (Hvalue eq_refl)|exact (Hlower eq_refl)].
Defined.

(** C3.  On the list endpoint an empty [contains_character] is not refused:
    the call succeeds, returns every record, and echoes the empty value among
    the filters applied. *)
Theorem list_strings_empty_contains_character :
  forall STORE : Store,
    list_strings None None None None (Some EmptyString) STORE =
    inr (mkListResponse (Dict.values STORE)
           (Z.of_nat (List.length (Dict.values STORE)))
           (Filters.mk None None None None (Some EmptyString))).
Proof.
  intros STORE. unfold list_strings.
  rewrite apply_filters_filter, filter_all; [reflexivity|].
  intros item. reflexivity.
Qed.

(** The rest of C3 holds: a value of two characters or more is refused. *)
Lemma list_strings_rejects_longer ip minl maxl wc (s : string) (STORE : Store) :
  (2 <= String.length s)%nat ->
  list_strings ip minl maxl wc (Some s) STORE =
  HTTPError 400 "contains_character must be one letter".
Proof.
  destruct s as [|a [|b s]]; cbn; try lia. reflexivity.
Qed.

(** C7.  With every criterion absent the filter engine returns its input as
    it is; with any criteria it returns the records that pass, the very
    records of the input, in the order they had there. *)
Theorem apply_filters_is_a_stable_filter :
  forall strings : list StringRecord.t,
    apply_filters strings None None None None None = strings /\
    apply_filters_kw strings Filters.empty = strings /\
    forall ip minl maxl wc cc,
      apply_filters strings ip minl maxl wc cc =
        filter (passes ip minl maxl wc cc) strings /\
      subsequence (apply_filters strings ip minl maxl wc cc) strings.
Proof.
  intros strings.
  assert (apply_filters strings None None None None None = strings) as Hnone.
  { rewrite apply_filters_filter. apply filter_all, passes_no_criteria. }
  repeat split.
  - exact Hnone.
  - exact Hnone.
  - apply apply_filters_filter.
  - rewrite apply_filters_filter. apply filter_subsequence.
Qed.

(** C8.  In any store the service can reach, deleting a stored record by its
    id succeeds with 204; after that a get of the id answers 404, and a
    second delete of the id answers 404 and changes nothing. *)
Theorem delete_then_absent :
  forall (STORE : Store) (record : StringRecord.t),
    reachable STORE ->
    In record (Dict.values STORE) ->
    exists STORE',
      delete_string (StringRecord.id record) STORE = (STORE', inr 204) /\
      find_string (StringRecord.id record) STORE' = None /\
      get_string (StringRecord.id record) STORE' =
        HTTPError 404 "String not found" /\
      delete_string (StringRecord.id record) STORE' =
        (STORE', HTTPError 404 "String not found").
Proof.
  intros STORE record Hreach Hin.
  destruct (reachable_store_ok _ Hreach) as [Hnd Hall].
  apply in_map_iff in Hin as ([k r] & Hr & Hin). cbn in Hr. subst r.
  pose proof (proj1 (Forall_forall _ _) Hall _ Hin) as (Hid & Hkey & _).
  cbn [fst snd] in Hid, Hkey. rewrite Hid.
  assert (is_fingerprint k = true) as Hsyntax
    by (rewrite Hkey; apply hexdigest_is_fingerprint).
  pose proof (in_get _ _ _ Hnd Hin) as Hget.
  destruct (del_present _ _ _ Hget) as [STORE' Hdel].
  pose proof (del_get_none _ _ _ Hnd Hdel) as Hgone.
  exists STORE'.
  assert (find_string k STORE' = None) as Hfind
    by now rewrite find_string_fingerprint.
  unfold delete_string, get_string.
  rewrite find_string_fingerprint, Hget, Hid, Hdel, Hfind by assumption.
  repeat split.
Qed.

Lemma delete_then_absent_witness :
  let STORE := fst (create_string "2025-01-01T00:00:00Z" "Hello" []) in
  let id := "2cf24dba5fb0a30e26e83b2ac5b9e29e1b161e5c1fa7425e73043362938b9824"%string in
  exists STORE',
    delete_string id STORE = (STORE', inr 204) /\
    get_string id STORE' = HTTPError 404 "String not found" /\
    delete_string id STORE' = (STORE', HTTPError 404 "String not found").
Proof.
  cbv zeta.
  assert (fingerprint_of "Hello" =
    "2cf24dba5fb0a30e26e83b2ac5b9e29e1b161e5c1fa7425e73043362938b9824"%string)
    as <- by (vm_compute; reflexivity).
  destruct (delete_then_absent
              (fst (create_string "2025-01-01T00:00:00Z" "Hello" []))
              (StringRecord.mk (fingerprint_of "Hello") "Hello"
                 (analyze_string "Hello") "2025-01-01T00:00:00Z"))
    as (STORE' & Hdelete & _ & Hget & Hagain).
  - apply reach_create, reach_start.
  - left. reflexivity.
  - exists STORE'. auto.
Defined.

(** C9.  The number of unique characters that [analyze_string] reports is the
    number of keys of the frequency map it reports; the keys are distinct,
    each is one character, and its count is the number of times the
    character occurs in the normalized value. *)
Theorem unique_characters_counts_keys :
  forall value : string,
    let props := analyze_string value in
    let counts := StringProperties.character_frequency_map props in
    StringProperties.unique_characters props =
      Z.of_nat (List.length (Dict.keys counts)) /\
    NoDup (Dict.keys counts) /\
    forall k n,
      Dict.get k counts = Some n ->
      exists c, k = String c EmptyString /\ n = count_char c (normalize value).
Proof.
  intros value. cbv zeta. unfold analyze_string.
  cbn [StringProperties.unique_characters
       StringProperties.character_frequency_map].
  pose proof (Counter_keys (normalize value) [] [] eq_refl) as K.
  repeat split.
  - now rewrite K, length_map.
  - rewrite K. apply nodup_char_keys, set_of_nodup. constructor.
  - intros k n G. pose proof (get_some_in_keys _ _ _ G) as Hk.
    rewrite K in Hk. apply in_map_iff in Hk as (c & <- & _).
    exists c. split; [reflexivity|].
    pose proof (Counter_counts (normalize value) [] c) as Hc.
    unfold count_default in Hc. rewrite G in Hc. cbn in Hc. lia.
Qed.

Lemma unique_characters_counts_keys_witness :
  Dict.get "a" (StringProperties.character_frequency_map
                  (analyze_string "A man a plan")) = Some 4 /\
  exists c, "a"%string = String c EmptyString /\
            4 = count_char c (normalize "A man a plan").
Proof.
  split; [reflexivity|].
  destruct (unique_characters_counts_keys "A man a plan") as (_ & _ & H).
  exact (H "a"%string 4 eq_refl).
Defined.

(** C10.  The empty string is analysed like any value: length 0, a
    palindrome, no word, no character; and it is created in any store that
    does not hold it yet, after which it resolves by its value. *)
Theorem empty_string_is_a_value :
  let sid :=
    "e3b0c44298fc1c149afbf4c8996fb92427ae41e4649b934ca495991b7852b855"%string in
  analyze_string EmptyString = StringProperties.mk 0 true 0 0 sid [] /\
  forall (now : string) (STORE : Store),
    Dict.mem sid STORE = false ->
    let record := StringRecord.mk sid EmptyString (analyze_string EmptyString) now in
    create_string now EmptyString STORE = (STORE ++ [(sid, record)], inr record) /\
    find_string EmptyString (STORE ++ [(sid, record)]) = Some record.
Proof.
  cbv zeta.
  assert (fingerprint_of EmptyString =
    "e3b0c44298fc1c149afbf4c8996fb92427ae41e4649b934ca495991b7852b855"%string)
    as Hsid by (vm_compute; reflexivity).
  split; [vm_compute; reflexivity|].
  intros now STORE Habsent. rewrite <- Hsid in *. apply mem_get in Habsent.
  split.
  - rewrite (create_string_absent now EmptyString STORE Habsent). reflexivity.
  - apply find_string_by_value; [reflexivity|].
    rewrite <- (set_absent _ _ _ Habsent). apply get_set_same.
Qed.

Lemma empty_string_is_a_value_witness :
  let sid :=
    "e3b0c44298fc1c149afbf4c8996fb92427ae41e4649b934ca495991b7852b855"%string in
  let record := StringRecord.mk sid EmptyString (analyze_string EmptyString) "2025-01-01T00:00:00Z" in
  Dict.mem sid ([] : Store) = false /\
  create_string "2025-01-01T00:00:00Z" EmptyString [] = ([(sid, record)], inr record).
Proof.
  cbv zeta. split; [reflexivity|].
  exact (proj1 (proj2 empty_string_is_a_value "2025-01-01T00:00:00Z" []
                  eq_refl)).
Defined.

(** Whether the numeral is within the limit can be read off the scanner. *)
Lemma numeral_within_limit_by_search (q : string) :
  match search_longer_than q with
  | Some group1 => (String.length group1 <=? Str.max_str_digits)%nat
  | None => true
  end = true ->
  numeral_within_limit q.
Proof.
  intros H pre digits post Hfirst.
  rewrite (search_longer_than_of_first _ _ _ _ Hfirst) in H.
  now apply Nat.leb_le.
Qed.

(** C4, as stated, fails: the text has both phrases and, after "longer
    than ", a numeral of 4301 digits; [int] raises [ValueError] on it and no
    criterion comes out. *)
Lemma first_vowel_long_numeral_counterexample :
  let query :=
    ("containing the letter b first vowel longer than "
       ++ Str.repeat "9" 4301)%string in
  matches_containing_letter (Str.strip (Str.lower query)) /\
  occurs "first vowel" (Str.strip (Str.lower query)) /\
  parse_query query = inl (ValueError 
      "Exceeds the limit (4300 digits) for integer string conversion: value has 4301 digits; use sys.set_int_max_str_digits() to increase the limit").
Proof.
  cbv zeta. split; [|split].
  - apply (search_containing_letter_matches _ "b"). vm_compute. reflexivity.
  - apply contains_occurs. vm_compute. reflexivity.
  - vm_compute. reflexivity.
Qed.

(** C4, amended.  When the text has both a "containing the letter X" phrase
    and "first vowel", and the numeral after its first "longer than ", if
    there is one, has at most 4300 digits, the parse succeeds with
    [contains_character = "a"]: the later rule has the last word.  The other
    rules put their criteria into the same set, each present exactly when
    its phrase is in the text. *)
Theorem first_vowel_has_the_last_word :
  forall query : string,
    let q := Str.strip (Str.lower query) in
    matches_containing_letter q ->
    occurs "first vowel" q ->
    numeral_within_limit q ->
    exists filters,
      parse_query query = inr filters /\
      Filters.contains_character filters = Some "a"%string /\
      (Filters.is_palindrome filters = Some true <-> occurs "palind" q) /\
      (Filters.word_count filters = Some 1 <-> occurs "single word" q) /\
      ((exists n, Filters.min_length filters = Some n) <->
       matches_longer_than q) /\
      Filters.max_length filters = None.
Proof.
  intros query q Hletter Hvowel Hlimit.
  assert (recognized q) as Hrec by (unfold recognized; tauto).
  exists (rule_filters q). rewrite (parse_query_within_limit _ Hlimit). fold q.
  destruct (Filters.is_empty (rule_filters q)) eqn:E.
  - apply rules_empty in E. contradiction.
  - split; [reflexivity|]. split.
    + apply contains_occurs in Hvowel. cbn. now rewrite Hvowel.
    + split; [apply rule_is_palindrome|].
      split; [apply rule_word_count|].
      split; [apply rule_min_length|reflexivity].
Qed.

Lemma first_vowel_has_the_last_word_witness :
  let query :=
    "Palindromes longer than 3 containing the letter b and the first vowel"%string in
  matches_containing_letter (Str.strip (Str.lower query)) /\
  occurs "first vowel" (Str.strip (Str.lower query)) /\
  numeral_within_limit (Str.strip (Str.lower query)) /\
  exists filters,
    parse_query query = inr filters /\
    Filters.contains_character filters = Some "a"%string.
Proof.
  cbv zeta.
  assert (matches_containing_letter
            (Str.strip (Str.lower
               "Palindromes longer than 3 containing the letter b and the first vowel")))
    as Hletter.
  { apply (search_containing_letter_matches _ "b"). vm_compute. reflexivity. }
  assert (occurs "first vowel"
            (Str.strip (Str.lower
               "Palindromes longer than 3 containing the letter b and the first vowel")))
    as Hvowel by (apply contains_occurs; vm_compute; reflexivity).
  assert (numeral_within_limit
            (Str.strip (Str.lower
               "Palindromes longer than 3 containing the letter b and the first vowel")))
    as Hlimit by (apply numeral_within_limit_by_search; vm_compute; reflexivity).
  split; [exact Hletter|]. split; [exact Hvowel|]. split; [exact Hlimit|].
  destruct (first_vowel_has_the_last_word _ Hletter Hvowel Hlimit)
    as (filters & Hparse & Hchar & _).
  exists filters. split; [exact Hparse|exact Hchar].
Defined.

(** C5, as stated, fails: the text reads "longer than " and then the numeral
    of a natural number, 4301 nines, yet no [min_length] comes out: [int]
    raises [ValueError]. *)
Lemma longer_than_long_numeral_counterexample :
  let query := ("longer than " ++ Str.repeat "9" 4301)%string in
  first_longer_than (Str.strip (Str.lower query)) EmptyString
    (Str.repeat "9" 4301) EmptyString /\
  parse_query query = inl (ValueError 
      "Exceeds the limit (4300 digits) for integer string conversion: value has 4301 digits; use sys.set_int_max_str_digits() to increase the limit").
Proof.
  cbv zeta. split; [|vm_compute; reflexivity].
  split; [|intros; cbn; lia].
  split; [vm_compute; reflexivity|].
  split; [discriminate|]. split; [vm_compute; reflexivity|exact I].
Qed.

(** C5, amended.  "Matching" is read as [re.search] reads it: the leftmost
    place of the text that has "longer than " and then digits, with all the
    digits there.  Where the numeral found so has at most 4300 digits and
    denotes N, the parse succeeds with [min_length = N + 1]; every natural
    number has a numeral; and the text "strings longer than 5 containing the
    letter z" parses to [min_length = 6] and [contains_character = "z"],
    nothing else. *)
Theorem longer_than_sets_min_length :
  (forall query pre digits post : string,
      let q := Str.strip (Str.lower query) in
      first_longer_than q pre digits post ->
      (String.length digits <= Str.max_str_digits)%nat ->
      exists filters,
        parse_query query = inr filters /\
        Filters.min_length filters = Some (Str.int_value digits + 1)) /\
  (forall N : nat,
      decimal N <> EmptyString /\
      Str.all Str.is_digit (decimal N) = true /\
      Str.int_value (decimal N) = Z.of_nat N) /\
  parse_query "strings longer than 5 containing the letter z" =
    inr (Filters.mk None (Some 6) None None (Some "z"%string)).
Proof.
  split; [|split].
  - intros query pre digits post q Hfirst Hshort.
    exists (rule_filters q). rewrite parse_query_rules. fold q.
    rewrite (search_longer_than_of_first _ _ _ _ Hfirst).
    rewrite (int_within_limit _ Hshort).
    split; [reflexivity|]. cbn.
    now rewrite (search_longer_than_of_first _ _ _ _ Hfirst).
  - intros N. split; [apply decimal_nonempty|].
    split; [apply digits_of_uint|apply int_decimal].
  - vm_compute. reflexivity.
Qed.

Lemma longer_than_sets_min_length_witness :
  let query := "Strings LONGER than 12 words"%string in
  first_longer_than (Str.strip (Str.lower query)) "strings " "12" " words" /\
  (String.length "12" <= Str.max_str_digits)%nat /\
  exists filters,
    parse_query query = inr filters /\
    Filters.min_length filters = Some 13.
Proof.
  cbv zeta.
  assert (first_longer_than
            (Str.strip (Str.lower "Strings LONGER than 12 words"))
            "strings " "12" " words") as Hfirst.
  { split.
    - repeat split. discriminate.
    - intros pre' digits' post' Hat'. apply longer_than_at_drop in Hat'.
      destruct (String.length pre') as [|[|[|[|[|[|[|[|n]]]]]]]];
        try (vm_compute in Hat'; discriminate Hat').
      cbn. lia. }
  assert (String.length "12" <= Str.max_str_digits)%nat as Hshort
    by (apply Nat.leb_le; vm_compute; reflexivity).
  split; [exact Hfirst|]. split; [exact Hshort|].
  destruct (proj1 longer_than_sets_min_length
              "Strings LONGER than 12 words" "strings " "12" " words"
              Hfirst Hshort)
    as (filters & Hparse & Hmin).
  exists filters. split; [exact Hparse|exact Hmin].
Defined.

(** C6, as stated, fails: the text has the phrase "palind", and a "longer
    than" phrase too, whose numeral is 4301 zeros; it is not parsed to
    criteria: [int] raises [ValueError], and the endpoint answers 400 with
    the message of [int]. *)
Lemma recognized_not_parsed_counterexample :
  let query := ("palindromes longer than " ++ Str.repeat "0" 4301)%string in
  recognized (Str.strip (Str.lower query)) /\
  parse_query query = inl (ValueError 
      "Exceeds the limit (4300 digits) for integer string conversion: value has 4301 digits; use sys.set_int_max_str_digits() to increase the limit") /\
  filter_nl query [] = HTTPError 400 
      "Exceeds the limit (4300 digits) for integer string conversion: value has 4301 digits; use sys.set_int_max_str_digits() to increase the limit".
Proof.
  cbv zeta. split; [|split].
  - left. apply contains_occurs. vm_compute. reflexivity.
  - vm_compute. reflexivity.
  - vm_compute. reflexivity.
Qed.

(** C6, amended.  A text with none of the five phrases is not parsed:
    [parse_query] raises [ValueError], which the endpoint turns into a 400.
    A text with at least one of them, in which the numeral after the first
    "longer than ", if there is one, has at most 4300 digits, is parsed, to
    a set of criteria that is not empty.  Where that numeral has more than
    4300 digits, [int] raises [ValueError], and the endpoint turns that into
    a 400 as well, with the message of [int]. *)
Theorem parse_query_unrecognized_or_not_empty :
  forall query : string,
    let q := Str.strip (Str.lower query) in
    (~ recognized q ->
     parse_query query = inl (ValueError "Couldn't understand the query.") /\
     forall STORE : Store,
       filter_nl query STORE = HTTPError 400 "Couldn't understand the query.") /\
    (recognized q ->
     numeral_within_limit q ->
     exists filters,
       parse_query query = inr filters /\
       Filters.is_empty filters = false /\
       filters <> Filters.empty /\
       forall STORE : Store,
         filter_nl query STORE =
         inr (mkNLResponse
                (apply_filters_kw (Dict.values STORE) filters)
                (Z.of_nat (List.length
                   (apply_filters_kw (Dict.values STORE) filters)))
                (mkInterpretedQuery query filters))) /\
    (forall pre digits post,
       first_longer_than q pre digits post ->
       (Str.max_str_digits < String.length digits)%nat ->
       parse_query query = inl (ValueError (Str.int_error digits)) /\
       forall STORE : Store,
         filter_nl query STORE = HTTPError 400 (Str.int_error digits)).
Proof.
  intros query q. split; [|split].
  - intros Hno.
    assert (numeral_within_limit q) as Hlimit.
    { intros pre digits post [Hat _]. exfalso. apply Hno.
      right. right. left. now exists pre, digits, post. }
    unfold filter_nl. rewrite (parse_query_within_limit _ Hlimit). fold q.
    apply rules_empty in Hno. rewrite Hno. split; reflexivity.
  - intros Hrec Hlimit.
    unfold filter_nl. rewrite (parse_query_within_limit _ Hlimit). fold q.
    destruct (Filters.is_empty (rule_filters q)) eqn:E.
    + apply rules_empty in E. contradiction.
    + exists (rule_filters q).
      split; [reflexivity|]. split; [assumption|].
      split; [|reflexivity].
      intros Heq. rewrite Heq in E. discriminate E.
  - intros pre digits post Hfirst Hlong.
    unfold filter_nl.
    rewrite (parse_query_past_limit _ _ _ _ Hfirst Hlong).
    split; reflexivity.
Qed.

Lemma parse_query_unrecognized_or_not_empty_witness :
  ~ recognized (Str.strip (Str.lower "banana bread")) /\
  parse_query "banana bread" =
    inl (ValueError "Couldn't understand the query.") /\
  filter_nl "banana bread" [] =
    HTTPError 400 "Couldn't understand the query." /\
  recognized (Str.strip (Str.lower "All single word palindromic strings")) /\
  numeral_within_limit
    (Str.strip (Str.lower "All single word palindromic strings")) /\
  (exists filters,
     parse_query "All single word palindromic strings" = inr filters /\
     filters <> Filters.empty) /\
  exists pre post,
    first_longer_than
      (Str.strip (Str.lower ("longer than " ++ Str.repeat "1" 4301)))
      pre (Str.repeat "1" 4301) post /\
    (Str.max_str_digits < String.length (Str.repeat "1" 4301))%nat /\
    parse_query ("longer than " ++ Str.repeat "1" 4301) =
      inl (ValueError (Str.int_error (Str.repeat "1" 4301))).
Proof.
  assert (~ recognized (Str.strip (Str.lower "banana bread"))) as Hno
    by (apply rules_empty; vm_compute; reflexivity).
  assert (recognized
            (Str.strip (Str.lower "All single word palindromic strings")))
    as Hyes by (apply rules_not_empty; vm_compute; reflexivity).
  assert (numeral_within_limit
            (Str.strip (Str.lower "All single word palindromic strings")))
    as Hlimit by (apply numeral_within_limit_by_search; vm_compute; reflexivity).
  destruct (proj1 (parse_query_unrecognized_or_not_empty "banana bread") Hno)
    as (Hparse & Hnl).
  destruct (proj1 (proj2 (parse_query_unrecognized_or_not_empty
                     "All single word palindromic strings")) Hyes Hlimit)
    as (filters & Hparsed & _ & Hne & _).
  assert (search_longer_than
            (Str.strip (Str.lower ("longer than " ++ Str.repeat "1" 4301))) =
          Some (Str.repeat "1" 4301)) as Hsearch by (vm_compute; reflexivity).
  destruct (search_longer_than_first _ _ Hsearch) as (pre & post & Hfirst).
  assert (Str.max_str_digits < String.length (Str.repeat "1" 4301))%nat
    as Hlong by (apply Nat.ltb_lt; vm_compute; reflexivity).
  destruct (proj2 (proj2 (parse_query_unrecognized_or_not_empty
                     ("longer than " ++ Str.repeat "1" 4301)))
              pre (Str.repeat "1" 4301) post Hfirst Hlong)
    as (Hraised & _).
  split; [exact Hno|]. split; [exact Hparse|]. split; [exact (Hnl [])|].
  split; [exact Hyes|]. split; [exact Hlimit|].
  split; [exists filters; split; [exact Hparsed|exact Hne]|].
  exists pre, post. split; [exact Hfirst|]. split; [exact Hlong|exact Hraised].
Defined.

(* ------------------------------------------------------------------ *)
(** * Further properties of the service *)

(** ** The store across requests *)

Lemma del_app_absent {V} (k : string) (v : V) (d : Dict.t V) :
  Dict.get k d = None -> Dict.del k (d ++ [(k, v)]) = Some d.
Proof.
  induction d as [|[k' v'] d IH]; cbn.
  - now rewrite String.eqb_refl.
  - destruct (String.eqb k k'); [discriminate|].
    intros G. now rewrite (IH G).
Qed.

Lemma del_length {V} (k : string) (d d' : Dict.t V) :
  Dict.del k d = Some d' -> List.length d = S (List.length d').
Proof.
  revert d'. induction d as [|[k' v'] d IH]; cbn; [discriminate|].
  intros d'. destruct (String.eqb k k').
  - now intros [= <-].
  - destruct (Dict.del k d) as [d''|]; [|discriminate].
    intros [= <-]. cbn. now rewrite (IH d'').
Qed.

Lemma del_keeps_others {V} (k k' : string) (v : V) (d d' : Dict.t V) :
  Dict.del k d = Some d' -> k' <> k -> In (k', v) d -> In (k', v) d'.
Proof.
  revert d'. induction d as [|[k0 v0] d IH]; cbn; [discriminate|].
  intros d'. destruct (String.eqb k k0) eqn:E.
  - apply String.eqb_eq in E. subst k0. intros [= <-] Hne [[= -> _]|H];
      [contradiction|assumption].
  - destruct (Dict.del k d) as [d''|]; [|discriminate].
    intros [= <-] Hne [H|H]; [now left|right; eauto].
Qed.

Lemma store_ok_entry (STORE : Store) (k : string) (r : StringRecord.t) :
  store_ok STORE -> In (k, r) STORE ->
  StringRecord.id r = k /\
  k = fingerprint_of (StringRecord.value r) /\
  StringRecord.properties r = analyze_string (StringRecord.value r) /\
  Dict.get k STORE = Some r.
Proof.
  intros [Hnd Hall] Hin.
  pose proof (proj1 (Forall_forall _ _) Hall _ Hin) as (H1 & H2 & H3).
  repeat split; try assumption. now apply in_get.
Qed.

Lemma store_ok_value (STORE : Store) (r : StringRecord.t) :
  store_ok STORE -> In r (Dict.values STORE) ->
  In (StringRecord.id r, r) STORE.
Proof.
  intros Hok Hin. apply in_map_iff in Hin as ([k r'] & Hr & Hin).
  cbn in Hr. subst r'.
  destruct (store_ok_entry _ _ _ Hok Hin) as (<- & _). assumption.
Qed.

Lemma find_string_lookup_key (token : string) (STORE : Store) :
  store_ok STORE ->
  find_string token STORE = Dict.get (lookup_key token) STORE.
Proof.
  intros Hok. unfold find_string, lookup_key.
  destruct (is_fingerprint token); [reflexivity|].
  fold (fingerprint_of token).
  destruct (Dict.get (fingerprint_of token) STORE) as [r|] eqn:G;
    [reflexivity|].
  destruct (find _ (Dict.values STORE)) as [r|] eqn:F; [|reflexivity].
  apply find_some in F as [Hin Heq]. apply String.eqb_eq in Heq.
  apply (store_ok_value _ _ Hok) in Hin.
  destruct (store_ok_entry _ _ _ Hok Hin) as (_ & Hkey & _ & Hget).
  rewrite Hkey in Hget. unfold fingerprint_of, normalize in Hget, G, Heq.
  rewrite Heq in Hget. congruence.
Qed.

(** X1.  Whatever creates and deletes led to it, the store has distinct
    keys, every key has the syntax of a fingerprint, and every record sits
    under its own id, which is the fingerprint of its value, with the
    properties of its value. *)
Theorem reachable_store_invariant :
  forall STORE : Store,
    reachable STORE ->
    NoDup (Dict.keys STORE) /\
    forall k r,
      In (k, r) STORE ->
      is_fingerprint k = true /\
      StringRecord.id r = k /\
      k = StringProperties.sha256_hash (StringRecord.properties r) /\
      StringRecord.properties r = analyze_string (StringRecord.value r) /\
      Dict.get k STORE = Some r.
Proof.
  intros STORE Hreach. pose proof (reachable_store_ok _ Hreach) as Hok.
  split; [exact (proj1 Hok)|].
  intros k r Hin.
  destruct (store_ok_entry _ _ _ Hok Hin) as (Hid & Hkey & Hprops & Hget).
  repeat split; try assumption.
  - rewrite Hkey. apply hexdigest_is_fingerprint.
  - now rewrite Hprops, sha256_hash_analyze.
Qed.

Lemma reachable_store_invariant_witness :
  let STORE :=
    fst (create_string "2025-01-02T00:00:00Z" "World"
           (fst (create_string "2025-01-01T00:00:00Z" "Hello" []))) in
  reachable STORE /\ NoDup (Dict.keys STORE).
Proof.
  cbv zeta.
  assert (reachable
            (fst (create_string "2025-01-02T00:00:00Z" "World"
                    (fst (create_string "2025-01-01T00:00:00Z" "Hello" [])))))
    as Hreach by (do 2 apply reach_create; apply reach_start).
  split; [exact Hreach|].
  exact (proj1 (reachable_store_invariant _ Hreach)).
Defined.

(** X2.  Deleting, by its id, the record a create has just returned gives
    back the store as it was before the create. *)
Theorem create_then_delete_restores :
  forall now value STORE STORE' record,
    create_string now value STORE = (STORE', inr record) ->
    delete_string (StringRecord.id record) STORE' = (STORE, inr 204).
Proof.
  intros now value STORE STORE' record Hcreate.
  apply create_string_created in Hcreate as (Habsent & Hrecord & ->).
  assert (StringRecord.id record = fingerprint_of value) as Hid
    by (subst record; reflexivity).
  unfold delete_string.
  rewrite find_string_fingerprint
    by (rewrite Hid; apply hexdigest_is_fingerprint).
  rewrite Hid, get_set_same, Hid, (set_absent _ _ _ Habsent).
  now rewrite (del_app_absent _ _ _ Habsent).
Qed.

Lemma create_then_delete_restores_witness :
  exists STORE' record,
    create_string "2025-01-01T00:00:00Z" "Level" [] = (STORE', inr record) /\
    delete_string (StringRecord.id record) STORE' = ([], inr 204).
Proof.
  pose proof (create_string_absent "2025-01-01T00:00:00Z" "Level" [] eq_refl)
    as Hcreate.
  cbv zeta in Hcreate.
  eexists _, _. split; [exact Hcreate|].
  exact (create_then_delete_restores _ _ _ _ _ Hcreate).
Defined.

(** X3.  In a store the service can reach, creating a value that differs
    only in case from the value of a stored record is refused with 409, and
    the store stays as it is. *)
Theorem create_conflicts_with_stored_case_variant :
  forall now value (STORE : Store) (record : StringRecord.t),
    reachable STORE ->
    In record (Dict.values STORE) ->
    Str.lower value = Str.lower (StringRecord.value record) ->
    create_string now value STORE =
      (STORE, HTTPError 409 "String already exists").
Proof.
  intros now value STORE record Hreach Hin Hfold.
  pose proof (reachable_store_ok _ Hreach) as Hok.
  apply (store_ok_value _ _ Hok) in Hin.
  destruct (store_ok_entry _ _ _ Hok Hin) as (_ & Hkey & _ & Hget).
  apply create_string_present.
  rewrite (fingerprint_of_lower _ _ Hfold), <- Hkey, Hget. discriminate.
Qed.

Lemma create_conflicts_with_stored_case_variant_witness :
  let STORE :=
    fst (create_string "2025-01-02T00:00:00Z" "World"
           (fst (create_string "2025-01-01T00:00:00Z" "Hello" []))) in
  create_string "2025-01-03T00:00:00Z" "hELLO" STORE =
    (STORE, HTTPError 409 "String already exists").
Proof.
  cbv zeta.
  apply (create_conflicts_with_stored_case_variant _ _ _
           (StringRecord.mk (fingerprint_of "Hello") "Hello"
              (analyze_string "Hello") "2025-01-01T00:00:00Z")).
  - do 2 apply reach_create. apply reach_start.
  - vm_compute. left. reflexivity.
  - reflexivity.
Defined.

Lemma same_key_same_record (STORE : Store) (r1 r2 : StringRecord.t) :
  store_ok STORE ->
  In r1 (Dict.values STORE) -> In r2 (Dict.values STORE) ->
  StringRecord.id r1 = StringRecord.id r2 -> r1 = r2.
Proof.
  intros Hok H1 H2 Hid.
  apply (store_ok_value _ _ Hok) in H1, H2.
  destruct (store_ok_entry _ _ _ Hok H1) as (_ & _ & _ & G1).
  destruct (store_ok_entry _ _ _ Hok H2) as (_ & _ & _ & G2).
  congruence.
Qed.

Lemma values_in {V} (k : string) (v : V) (d : Dict.t V) :
  In (k, v) d -> In v (Dict.values d).
Proof. intros H. change v with (snd (k, v)). now apply in_map. Qed.

(** X4.  In a store the service can reach one lookup decides
    [find_string]: the token itself when it has the syntax of a fingerprint,
    the fingerprint of the token otherwise.  The scan over the stored values
    never finds what that lookup missed, and a record that is found is a
    record of the store, kept under the key looked up. *)
Theorem find_string_is_one_lookup :
  forall (token : string) (STORE : Store),
    reachable STORE ->
    find_string token STORE = Dict.get (lookup_key token) STORE /\
    forall record,
      find_string token STORE = Some record ->
      In record (Dict.values STORE) /\
      StringRecord.id record = lookup_key token.
Proof.
  intros token STORE Hreach. pose proof (reachable_store_ok _ Hreach) as Hok.
  rewrite (find_string_lookup_key _ _ Hok). split; [reflexivity|].
  intros record G. apply get_in_keys in G.
  split; [now apply values_in in G|].
  now destruct (store_ok_entry _ _ _ Hok G).
Qed.

Lemma find_string_is_one_lookup_witness :
  let STORE := fst (create_string "2025-01-01T00:00:00Z" "Hello" []) in
  reachable STORE /\
  find_string "HELLO" STORE = Dict.get (lookup_key "HELLO") STORE.
Proof.
  cbv zeta.
  assert (reachable (fst (create_string "2025-01-01T00:00:00Z" "Hello" [])))
    as Hreach by (apply reach_create, reach_start).
  split; [exact Hreach|].
  exact (proj1 (find_string_is_one_lookup "HELLO" _ Hreach)).
Defined.

(** X5.  In a store the service can reach, a stored record is found, by
    [find_string] and by the get endpoint, under any token that is its value
    up to case, as long as the token does not have the syntax of a
    fingerprint. *)
Theorem resolve_stored_by_any_casing :
  forall (token : string) (STORE : Store) (record : StringRecord.t),
    reachable STORE ->
    In record (Dict.values STORE) ->
    Str.lower token = Str.lower (StringRecord.value record) ->
    is_fingerprint token = false ->
    find_string token STORE = Some record /\
    get_string token STORE = inr record.
Proof.
  intros token STORE record Hreach Hin Hfold Hsyntax.
  pose proof (reachable_store_ok _ Hreach) as Hok.
  apply (store_ok_value _ _ Hok) in Hin.
  destruct (store_ok_entry _ _ _ Hok Hin) as (_ & Hkey & _ & Hget).
  assert (find_string token STORE = Some record) as Hfind.
  { apply find_string_by_value; [assumption|].
    now rewrite (fingerprint_of_lower _ _ Hfold), <- Hkey. }
  split; [assumption|]. unfold get_string. now rewrite Hfind.
Qed.

Lemma resolve_stored_by_any_casing_witness :
  let STORE :=
    fst (create_string "2025-01-02T00:00:00Z" "World"
           (fst (create_string "2025-01-01T00:00:00Z" "Hello" []))) in
  let record :=
    StringRecord.mk (fingerprint_of "Hello") "Hello" (analyze_string "Hello")
      "2025-01-01T00:00:00Z" in
  get_string "hELLo" STORE = inr record.
Proof.
  cbv zeta.
  apply (resolve_stored_by_any_casing "hELLo").
  - do 2 apply reach_create. apply reach_start.
  - vm_compute. left. reflexivity.
  - reflexivity.
  - reflexivity.
Defined.

(** X6.  In a store the service can reach, a delete whose token resolves to
    a record answers 204 and never raises [KeyError]; it takes exactly that
    record out of the store and leaves the other records, in their order. *)
Theorem delete_removes_exactly_one :
  forall (token : string) (STORE : Store) (record : StringRecord.t),
    reachable STORE ->
    find_string token STORE = Some record ->
    exists STORE',
      delete_string token STORE = (STORE', inr 204) /\
      List.length STORE = S (List.length STORE') /\
      ~ In record (Dict.values STORE') /\
      (forall r, In r (Dict.values STORE) -> r <> record ->
                 In r (Dict.values STORE')) /\
      subsequence (Dict.values STORE') (Dict.values STORE).
Proof.
  intros token STORE record Hreach Hfind.
  pose proof (reachable_store_ok _ Hreach) as Hok.
  pose proof (store_ok_delete token _ Hok) as Hok'.
  rewrite (find_string_lookup_key _ _ Hok) in Hfind.
  pose proof (get_in_keys _ _ _ Hfind) as Hin.
  destruct (store_ok_entry _ _ _ Hok Hin) as (Hid & _ & _ & Hget).
  destruct (del_present _ _ _ Hget) as [STORE' Hdel].
  assert (delete_string token STORE = (STORE', inr 204)) as Hdelete.
  { unfold delete_string.
    now rewrite (find_string_lookup_key _ _ Hok), Hfind, Hid, Hdel. }
  rewrite Hdelete in Hok'. cbn [fst] in Hok'.
  exists STORE'. split; [assumption|].
  split; [now apply del_length in Hdel|].
  split; [|split].
  - intros Hgone. apply (store_ok_value _ _ Hok') in Hgone.
    destruct (store_ok_entry _ _ _ Hok' Hgone) as (_ & _ & _ & Hstill).
    rewrite Hid in Hstill.
    rewrite (del_get_none _ _ _ (proj1 Hok) Hdel) in Hstill. discriminate.
  - intros r Hr Hne. pose proof (store_ok_value _ _ Hok Hr) as Hr'.
    apply (values_in (StringRecord.id r)).
    apply (del_keeps_others _ _ _ _ _ Hdel); [|assumption].
    intros Hsame. apply Hne.
    apply (same_key_same_record STORE); try assumption.
    + now apply values_in in Hin.
    + congruence.
  - apply subsequence_map. now apply del_subsequence in Hdel.
Qed.

Lemma delete_removes_exactly_one_witness :
  let STORE :=
    fst (create_string "2025-01-02T00:00:00Z" "World"
           (fst (create_string "2025-01-01T00:00:00Z" "Hello" []))) in
  exists STORE',
    delete_string "HELLO" STORE = (STORE', inr 204) /\
    List.length STORE = S (List.length STORE').
Proof.
  cbv zeta.
  destruct (delete_removes_exactly_one "HELLO"
              (fst (create_string "2025-01-02T00:00:00Z" "World"
                      (fst (create_string "2025-01-01T00:00:00Z" "Hello" []))))
              (StringRecord.mk (fingerprint_of "Hello") "Hello"
                 (analyze_string "Hello") "2025-01-01T00:00:00Z"))
    as (STORE' & Hdelete & Hlength & _).
  - do 2 apply reach_create. apply reach_start.
  - vm_compute. reflexivity.
  - exists STORE'. split; assumption.
Defined.

(** X7.  In a store the service can reach, once a stored record has been
    deleted by its id its value can be created again, and the new record has
    the id the old one had. *)
Theorem delete_then_create_again :
  forall (STORE : Store) (record : StringRecord.t),
    reachable STORE ->
    In record (Dict.values STORE) ->
    exists STORE',
      delete_string (StringRecord.id record) STORE = (STORE', inr 204) /\
      forall now,
        exists STORE'' record',
          create_string now (StringRecord.value record) STORE' =
            (STORE'', inr record') /\
          StringRecord.id record' = StringRecord.id record /\
          StringRecord.properties record' = StringRecord.properties record.
Proof.
  intros STORE record Hreach Hin.
  pose proof (reachable_store_ok _ Hreach) as Hok.
  apply (store_ok_value _ _ Hok) in Hin.
  destruct (store_ok_entry _ _ _ Hok Hin) as (_ & Hkey & Hprops & Hget).
  destruct (del_present _ _ _ Hget) as [STORE' Hdel].
  pose proof (del_get_none _ _ _ (proj1 Hok) Hdel) as Hgone.
  exists STORE'. split.
  - unfold delete_string.
    rewrite find_string_fingerprint
      by (rewrite Hkey; apply hexdigest_is_fingerprint).
    now rewrite Hget, Hdel.
  - intros now. rewrite Hkey in Hgone.
    eexists _, _. split; [exact (create_string_absent now _ _ Hgone)|].
    split; [now rewrite Hkey|now rewrite Hprops].
Qed.

Lemma delete_then_create_again_witness :
  let STORE := fst (create_string "2025-01-01T00:00:00Z" "Hello" []) in
  let id := fingerprint_of "Hello" in
  exists STORE',
    delete_string id STORE = (STORE', inr 204) /\
    exists STORE'' record',
      create_string "2025-01-05T00:00:00Z" "Hello" STORE' =
        (STORE'', inr record').
Proof.
  cbv zeta.
  destruct (delete_then_create_again
              (fst (create_string "2025-01-01T00:00:00Z" "Hello" []))
              (StringRecord.mk (fingerprint_of "Hello") "Hello"
                 (analyze_string "Hello") "2025-01-01T00:00:00Z"))
    as (STORE' & Hdelete & Hcreate).
  - apply reach_create, reach_start.
  - left. reflexivity.
  - exists STORE'. split; [exact Hdelete|].
    destruct (Hcreate "2025-01-05T00:00:00Z")
      as (STORE'' & record' & Hc & _).
    now exists STORE'', record'.
Defined.

(** X8.  After a successful create, listing with no filter returns the
    records that were there, in their order, and then the new record; the
    count is one more than it was. *)
Theorem list_after_create :
  forall now value STORE STORE' record,
    create_string now value STORE = (STORE', inr record) ->
    list_strings None None None None None STORE' =
    inr (mkListResponse (Dict.values STORE ++ [record])
           (Z.of_nat (List.length (Dict.values STORE)) + 1)
           Filters.empty).
Proof.
  intros now value STORE STORE' record Hcreate.
  apply create_string_created in Hcreate as (Habsent & _ & ->).
  rewrite (set_absent _ _ _ Habsent). unfold list_strings.
  rewrite apply_filters_filter, (filter_all _ _ passes_no_criteria).
  unfold Dict.values. rewrite map_app, length_app. cbn [map snd List.length].
  unfold Filters.empty. do 2 f_equal. lia.
Qed.

Lemma list_after_create_witness :
  exists STORE' record,
    create_string "2025-01-01T00:00:00Z" "Hello" [] = (STORE', inr record) /\
    list_strings None None None None None STORE' =
      inr (mkListResponse [record] 1 Filters.empty).
Proof.
  pose proof (create_string_absent "2025-01-01T00:00:00Z" "Hello" [] eq_refl)
    as Hcreate.
  cbv zeta in Hcreate.
  eexists _, _. split; [exact Hcreate|].
  exact (list_after_create _ _ _ _ _ Hcreate).
Defined.

(** ** The analyzer *)

Lemma mem_set {V} (k k' : string) (v : V) (d : Dict.t V) :
  Dict.mem k (Dict.set k' v d) = String.eqb k' k || Dict.mem k d.
Proof.
  destruct (String.eqb k' k) eqn:E.
  - apply String.eqb_eq in E. subst k'. unfold Dict.mem.
    now rewrite get_set_same.
  - apply String.eqb_neq in E. unfold Dict.mem.
    now rewrite (get_set_other _ _ _ _ E).
Qed.

Lemma count_char_nonneg (c : ascii) (s : string) : 0 <= count_char c s.
Proof.
  induction s as [|c' s IH]; cbn [count_char]; [lia|].
  destruct (Ascii.eqb c c'); lia.
Qed.

Lemma Counter_mem (s : string) : forall counts c,
  Dict.mem (char_key c) (Counter s counts) =
  Dict.mem (char_key c) counts || (0 <? count_char c s).
Proof.
  induction s as [|c0 s IH]; intros counts c; cbn [Counter count_char].
  - now rewrite orb_false_r.
  - rewrite IH. fold (char_key c0). rewrite mem_set, char_key_eqb.
    pose proof (count_char_nonneg c s) as Hpos.
    rewrite (Ascii.eqb_sym c0 c).
    destruct (Ascii.eqb c c0), (Dict.mem (char_key c) counts); cbn [orb];
      rewrite ?Z.add_0_l; try reflexivity.
    symmetry. apply Z.ltb_lt. lia.
Qed.

Lemma sum_counts_set (k : string) (v : Z) (d : Dict.t Z) :
  sum_counts (Dict.set k v d) = sum_counts d - count_default d k + v.
Proof.
  unfold sum_counts, count_default, Dict.values.
  induction d as [|[k0 v0] d IH]; cbn [Dict.set Dict.get map snd fold_right];
    [lia|].
  destruct (String.eqb k k0); cbn [map snd fold_right]; [lia|].
  rewrite IH. lia.
Qed.

Lemma Counter_sum (s : string) : forall counts,
  sum_counts (Counter s counts) = sum_counts counts + Str.len s.
Proof.
  unfold Str.len.
  induction s as [|c s IH]; intros counts; cbn [Counter String.length];
    [cbn; lia|].
  rewrite IH, sum_counts_set. fold (char_key c). unfold count_default. lia.
Qed.

(** X9.  In the frequency map of a value a character is a key exactly when it
    occurs in the normalized value, every count is at least 1, and the counts
    add up to the length of the normalized value. *)
Theorem frequency_map_accounts_for_every_character :
  forall value : string,
    let counts :=
      StringProperties.character_frequency_map (analyze_string value) in
    (forall c,
        Dict.mem (String c EmptyString) counts = true <->
        0 < count_char c (normalize value)) /\
    (forall k n, Dict.get k counts = Some n -> 1 <= n) /\
    sum_counts counts = Str.len (normalize value).
Proof.
  intros value. cbv zeta. unfold analyze_string.
  cbn [StringProperties.character_frequency_map].
  assert (forall c,
             Dict.mem (char_key c) (Counter (normalize value) []) = true <->
             0 < count_char c (normalize value)) as Hmem.
  { intros c. rewrite Counter_mem. cbn. apply Z.ltb_lt. }
  split; [exact Hmem|]. split.
  - intros k n G.
    pose proof (get_some_in_keys _ _ _ G) as Hk.
    rewrite (Counter_keys (normalize value) [] [] eq_refl) in Hk.
    apply in_map_iff in Hk as (c & <- & _).
    pose proof (Counter_counts (normalize value) [] c) as Hc.
    unfold count_default in Hc. rewrite G in Hc. cbn in Hc.
    assert (Dict.mem (char_key c) (Counter (normalize value) []) = true)
      as M by (unfold Dict.mem; now rewrite G).
    apply Hmem in M. lia.
  - now rewrite Counter_sum.
Qed.

Lemma frequency_map_accounts_for_every_character_witness :
  Dict.get "s" (StringProperties.character_frequency_map
                  (analyze_string "Mississippi")) = Some 4 /\ 1 <= 4.
Proof.
  split; [reflexivity|].
  exact (proj1 (proj2 (frequency_map_accounts_for_every_character
                         "Mississippi")) "s"%string 4 eq_refl).
Defined.

Lemma set_of_length_le (s : string) : forall seen,
  (List.length (set_of s seen) <= List.length seen + String.length s)%nat.
Proof.
  induction s as [|c s IH]; intros seen; cbn [set_of String.length]; [lia|].
  specialize (IH (if existsb (Ascii.eqb c) seen then seen else seen ++ [c])).
  destruct (existsb (Ascii.eqb c) seen); [lia|].
  rewrite length_app in IH. cbn in IH. lia.
Qed.

Lemma set_of_length_ge (s : string) : forall seen,
  (List.length seen <= List.length (set_of s seen))%nat.
Proof.
  induction s as [|c s IH]; intros seen; cbn [set_of]; [lia|].
  specialize (IH (if existsb (Ascii.eqb c) seen then seen else seen ++ [c])).
  destruct (existsb (Ascii.eqb c) seen); [lia|].
  rewrite length_app in IH. cbn in IH. lia.
Qed.

Lemma lower_length (s : string) :
  String.length (Str.lower s) = String.length s.
Proof. induction s as [|c s IH]; cbn; [reflexivity|now rewrite IH]. Qed.

(** X10.  The number of unique characters of a value is at most the length
    of the normalized value, and it is 0 for the empty string only. *)
Theorem unique_characters_bounds :
  forall value : string,
    let props := analyze_string value in
    0 <= StringProperties.unique_characters props <=
      Str.len (normalize value) /\
    (StringProperties.unique_characters props = 0 <-> value = EmptyString).
Proof.
  intros value. cbv zeta. unfold analyze_string, Str.len.
  cbn [StringProperties.unique_characters].
  pose proof (set_of_length_le (normalize value) []) as Hle. cbn in Hle.
  split; [lia|]. split.
  - destruct value as [|c value]; [reflexivity|].
    unfold normalize. cbn [Str.lower set_of existsb app].
    pose proof (set_of_length_ge (Str.lower value) [Str.lower_char c]) as Hge.
    cbn in Hge. lia.
  - intros ->. reflexivity.
Qed.

(** *** Words *)

Lemma rev_append_length (s : string) : forall acc,
  String.length (Str.rev_append s acc) =
  (String.length s + String.length acc)%nat.
Proof.
  induction s as [|c s IH]; intros acc; cbn; [reflexivity|].
  rewrite IH. cbn. lia.
Qed.

Lemma rev_append_all (p : ascii -> bool) (s : string) : forall acc,
  Str.all p (Str.rev_append s acc) = Str.all p s && Str.all p acc.
Proof.
  induction s as [|c s IH]; intros acc; cbn; [reflexivity|].
  rewrite IH. cbn. destruct (p c), (Str.all p s); reflexivity.
Qed.

Lemma rev_nonempty (s : string) : s <> EmptyString -> Str.rev s <> EmptyString.
Proof.
  intros Hne Hrev. apply Hne.
  assert (String.length (Str.rev s) = 0%nat) as L by now rewrite Hrev.
  unfold Str.rev in L. rewrite rev_append_length in L.
  destruct s; [reflexivity|cbn in L; lia].
Qed.

Lemma findall_from_words (s : string) : forall run,
  Str.all not_space run = true ->
  Forall (fun w => w <> EmptyString /\ Str.all not_space w = true)
         (findall_nonspace_from run s).
Proof.
  assert (forall run, run <> EmptyString -> Str.all not_space run = true ->
            Str.rev run <> EmptyString /\
            Str.all not_space (Str.rev run) = true) as Hrev.
  { intros run Hne Hall. split; [now apply rev_nonempty|].
    unfold Str.rev. now rewrite rev_append_all, Hall. }
  induction s as [|c s IH]; intros run Hall; cbn [findall_nonspace_from].
  - destruct run as [|r run]; [constructor|].
    constructor; [|constructor]. now apply Hrev.
  - destruct (Str.is_space c) eqn:E.
    + destruct run as [|r run]; [now apply IH|].
      constructor; [now apply Hrev|now apply IH].
    + apply IH. cbn. unfold not_space at 1. now rewrite E.
Qed.

Lemma findall_from_nil (s : string) : forall run,
  findall_nonspace_from run s = [] <->
  run = EmptyString /\ Str.all Str.is_space s = true.
Proof.
  induction s as [|c s IH]; intros run; cbn [findall_nonspace_from Str.all].
  - destruct run; split; try tauto; try discriminate.
    intros [H _]. discriminate H.
  - destruct (Str.is_space c) eqn:E; cbn [andb].
    + destruct run as [|r run]; [apply IH|].
      split; [discriminate|]. intros [H _]. discriminate H.
    + rewrite IH. split; [intros [H _]; discriminate H|].
      intros [_ H]. discriminate H.
Qed.

Lemma findall_from_app (a b : string) (sp : ascii) : forall run,
  Str.is_space sp = true ->
  findall_nonspace_from run (a ++ String sp b) =
  findall_nonspace_from run a ++ findall_nonspace_from EmptyString b.
Proof.
  intros run Hsp. revert run.
  induction a as [|c a IH]; intros run;
    cbn [append findall_nonspace_from].
  - rewrite Hsp. now destruct run.
  - destruct (Str.is_space c); [|apply IH].
    destruct run; rewrite IH; reflexivity.
Qed.

(** X11.  The words counted are runs of characters that are not white space,
    none of them empty; the count is 0 exactly for a value of white space
    only, the empty value among them; and the count of two texts joined by a
    white space character is the sum of their counts. *)
Theorem word_count_counts_runs :
  forall value : string,
    Forall (fun w => w <> EmptyString /\ Str.all not_space w = true)
           (findall_nonspace value) /\
    (StringProperties.word_count (analyze_string value) = 0 <->
     Str.all Str.is_space value = true) /\
    forall (sp : ascii) (rest : string),
      Str.is_space sp = true ->
      StringProperties.word_count
        (analyze_string (value ++ String sp rest)) =
      StringProperties.word_count (analyze_string value) +
      StringProperties.word_count (analyze_string rest).
Proof.
  intros value. unfold analyze_string, findall_nonspace.
  cbn [StringProperties.word_count].
  split; [now apply findall_from_words|]. split.
  - split; intros H.
    + assert (findall_nonspace_from EmptyString value = []) as Hnil
        by (apply length_zero_iff_nil; lia).
      now apply findall_from_nil in Hnil.
    + now rewrite (proj2 (findall_from_nil value EmptyString) (conj eq_refl H)).
  - intros sp rest Hsp.
    rewrite (findall_from_app _ _ _ _ Hsp), length_app. lia.
Qed.

Lemma word_count_counts_runs_witness :
  Str.is_space " " = true /\
  StringProperties.word_count (analyze_string "A man a plan") =
  StringProperties.word_count (analyze_string "A man") +
  StringProperties.word_count (analyze_string "a plan").
Proof.
  split; [reflexivity|].
  exact (proj2 (proj2 (word_count_counts_runs "A man")) " "%char "a plan"
           eq_refl).
Defined.

(** ** The filter engine *)

Lemma passes_meets ip minl maxl wc cc item :
  passes ip minl maxl wc cc item = true <-> meets ip minl maxl wc cc item.
Proof.
  unfold passes, meets. cbv zeta. rewrite !andb_true_iff.
  set (props := StringRecord.properties item).
  assert (match ip with
          | Some b => Bool.eqb (StringProperties.is_palindrome props) b
          | None => true
          end = true <->
          forall b, ip = Some b -> StringProperties.is_palindrome props = b)
    as H1.
  { destruct ip as [b|]; [|split; [discriminate|reflexivity]].
    rewrite Bool.eqb_true_iff. split; [now intros -> b' [= <-]|auto]. }
  assert (match minl with
          | Some n => negb (StringProperties.length props <? n)
          | None => true
          end = true <->
          forall n, minl = Some n -> n <= StringProperties.length props) as H2.
  { destruct minl as [n|]; [|split; [discriminate|reflexivity]].
    rewrite negb_true_iff, Z.ltb_ge.
    split; [now intros H n' [= <-]|auto]. }
  assert (match maxl with
          | Some n => negb (StringProperties.length props >? n)
          | None => true
          end = true <->
          forall n, maxl = Some n -> StringProperties.length props <= n) as H3.
  { destruct maxl as [n|]; [|split; [discriminate|reflexivity]].
    rewrite negb_true_iff, Z.gtb_ltb, Z.ltb_ge.
    split; [now intros H n' [= <-]|auto]. }
  assert (match wc with
          | Some n => StringProperties.word_count props =? n
          | None => true
          end = true <->
          forall n, wc = Some n -> StringProperties.word_count props = n) as H4.
  { destruct wc as [n|]; [|split; [discriminate|reflexivity]].
    rewrite Z.eqb_eq. split; [now intros H n' [= <-]|auto]. }
  assert (match cc with
          | Some (String _ _ as s) =>
              let ch := normalize s in
              Dict.mem ch (StringProperties.character_frequency_map props)
          | _ => true
          end = true <->
          forall s, cc = Some s -> s <> EmptyString ->
            Dict.mem (Str.lower s)
              (StringProperties.character_frequency_map props) = true) as H5.
  { destruct cc as [[|c s]|].
    - split; [|reflexivity]. intros _ s' [= <-] Hne. contradiction.
    - cbv zeta. unfold normalize. split; [now intros H s' [= <-] _|].
      intros H. apply H; [reflexivity|discriminate].
    - split; [discriminate|reflexivity]. }
  rewrite H1, H2, H3, H4, H5. tauto.
Qed.

Lemma filter_nothing {A} (p : A -> bool) (l : list A) :
  (forall x, p x = false) -> filter p l = [].
Proof.
  intros Hp. induction l as [|x l IH]; cbn; [reflexivity|]. now rewrite Hp.
Qed.

Lemma filter_filter {A} (p q : A -> bool) (l : list A) :
  filter p (filter q l) = filter (fun x => q x && p x) l.
Proof.
  induction l as [|x l IH]; cbn; [reflexivity|].
  destruct (q x); cbn; [destruct (p x)|]; now rewrite IH.
Qed.

(** X12.  A record is in the result of [apply_filters] exactly when it is in
    the input and meets every criterion that is given: the palindrome flag
    equal, the length within the bounds, both ends included, the word count
    equal, and the lowercased character a key of the frequency map. *)
Theorem apply_filters_selects_what_meets :
  forall strings ip minl maxl wc cc (item : StringRecord.t),
    In item (apply_filters strings ip minl maxl wc cc) <->
    In item strings /\ meets ip minl maxl wc cc item.
Proof.
  intros strings ip minl maxl wc cc item.
  rewrite apply_filters_filter, filter_In, passes_meets. tauto.
Qed.

(** X13.  A minimum length above the maximum length is no error: the result
    is empty. *)
Theorem apply_filters_inverted_bounds :
  forall strings ip (n_min n_max : Z) wc cc,
    n_max < n_min ->
    apply_filters strings ip (Some n_min) (Some n_max) wc cc = [].
Proof.
  intros strings ip n_min n_max wc cc Hinv.
  rewrite apply_filters_filter. apply filter_nothing. intros item.
  destruct (passes ip (Some n_min) (Some n_max) wc cc item) eqn:P;
    [|reflexivity].
  apply passes_meets in P as (_ & Hmin & Hmax & _).
  specialize (Hmin _ eq_refl). specialize (Hmax _ eq_refl). lia.
Qed.

Lemma apply_filters_inverted_bounds_witness :
  apply_filters
    (Dict.values (fst (create_string "2025-01-01T00:00:00Z" "Hello" [])))
    None (Some 10) (Some 3) None None = [].
Proof.
  apply apply_filters_inverted_bounds. lia.
Defined.

(** X14.  Filtering goes record by record: the result on two lists put end
    to end is the two results put end to end; filtering a result again with
    the same criteria changes nothing; and two sets of criteria applied one
    after the other give the same records in either order. *)
Theorem apply_filters_composes :
  forall l1 l2 ip minl maxl wc cc ip' minl' maxl' wc' cc',
    apply_filters (l1 ++ l2) ip minl maxl wc cc =
      apply_filters l1 ip minl maxl wc cc ++
      apply_filters l2 ip minl maxl wc cc /\
    apply_filters (apply_filters l1 ip minl maxl wc cc) ip minl maxl wc cc =
      apply_filters l1 ip minl maxl wc cc /\
    apply_filters (apply_filters l1 ip minl maxl wc cc) ip' minl' maxl' wc' cc' =
      apply_filters (apply_filters l1 ip' minl' maxl' wc' cc') ip minl maxl wc cc.
Proof.
  intros. rewrite !apply_filters_filter. split; [apply filter_app|]. split.
  - rewrite filter_filter. apply filter_ext. intros x.
    now destruct (passes ip minl maxl wc cc x).
  - rewrite !filter_filter. apply filter_ext. intros x. apply andb_comm.
Qed.



(** ** The list endpoint *)

(** X16.  The list endpoint answers 400 exactly when [contains_character]
    has two characters or more.  In every other case it succeeds: the data
    are what [apply_filters] keeps of the stored records, in store order, the
    count is their number, and the filters are echoed as given. *)
Theorem list_strings_rejects_only_long_characters :
  forall ip minl maxl wc cc (STORE : Store),
    (forall s, cc = Some s -> (2 <= String.length s)%nat ->
       list_strings ip minl maxl wc cc STORE =
       HTTPError 400 "contains_character must be one letter") /\
    ((forall s, cc = Some s -> (String.length s <= 1)%nat) ->
       list_strings ip minl maxl wc cc STORE =
       inr (mkListResponse
              (apply_filters (Dict.values STORE) ip minl maxl wc cc)
              (Z.of_nat (List.length
                 (apply_filters (Dict.values STORE) ip minl maxl wc cc)))
              (Filters.mk ip minl maxl wc cc))).
Proof.
  intros ip minl maxl wc cc STORE. split.
  - intros s -> Hlong. now apply list_strings_rejects_longer.
  - intros Hshort. unfold list_strings.
    destruct cc as [[|a [|b s]]|]; try reflexivity.
    specialize (Hshort _ eq_refl). cbn in Hshort. lia.
Qed.

Lemma list_strings_rejects_only_long_characters_witness :
  list_strings None None None None (Some "ab") [] =
    HTTPError 400 "contains_character must be one letter" /\
  list_strings (Some true) None (Some 5) None (Some "a") [] =
    inr (mkListResponse [] 0
           (Filters.mk (Some true) None (Some 5) None (Some "a"%string))).
Proof.
  split.
  - refine (proj1 (list_strings_rejects_only_long_characters
                     None None None None (Some "ab"%string) []) "ab"%string
                  eq_refl _).
    cbn. lia.
  - refine (proj2 (list_strings_rejects_only_long_characters
                     (Some true) None (Some 5) None (Some "a"%string) []) _).
    intros s [= <-]. cbn. lia.
Defined.

(** ** The query interpreter *)

Lemma is_digit_ord (c : ascii) :
  Str.is_digit c = true -> 48 <= Str.ord c <= 57.
Proof.
  unfold Str.is_digit, Str.in_range. rewrite andb_true_iff, !Z.leb_le. tauto.
Qed.

Lemma int_acc_nonneg (ds : string) : forall acc,
  0 <= acc -> Str.all Str.is_digit ds = true -> 0 <= Str.int_acc acc ds.
Proof.
  induction ds as [|c ds IH]; intros acc Hacc Hall;
    cbn [Str.int_acc Str.all] in *; [assumption|].
  apply andb_prop in Hall as [Hc Hall]. apply is_digit_ord in Hc.
  apply IH; [lia|assumption].
Qed.

Lemma parse_query_parsed (query : string) (filters : Filters.t) :
  parse_query query = inr filters ->
  filters = rule_filters (Str.strip (Str.lower query)).
Proof.
  rewrite parse_query_rules.
  destruct (search_longer_than _) as [group1|].
  - destruct (Str.int group1); [discriminate|]. now intros [= <-].
  - destruct (Filters.is_empty _); [discriminate|]. now intros [= <-].
Qed.

Lemma rule_contains_character (q s : string) :
  Filters.contains_character (rule_filters q) = Some s ->
  exists c, s = String c EmptyString /\ Str.is_lower_letter c = true.
Proof.
  cbn. destruct (Str.contains "first vowel" q).
  - intros [= <-]. exists "a"%char. split; reflexivity.
  - intros S.
    apply search_containing_letter_sound in S
      as (pre & sp & c & post & -> & _ & _ & _ & Hc).
    now exists c.
Qed.

(** X17.  What [parse_query] can return is narrow: it never sets
    [max_length]; [is_palindrome] is absent or true, never false;
    [word_count] is absent or 1; a [min_length] is at least 1; and a
    [contains_character] is one lowercase letter from a to z. *)
Theorem parse_query_range :
  forall (query : string) (filters : Filters.t),
    parse_query query = inr filters ->
    Filters.max_length filters = None /\
    (Filters.is_palindrome filters = None \/
     Filters.is_palindrome filters = Some true) /\
    (Filters.word_count filters = None \/
     Filters.word_count filters = Some 1) /\
    (forall n, Filters.min_length filters = Some n -> 1 <= n) /\
    (forall s, Filters.contains_character filters = Some s ->
       exists c, s = String c EmptyString /\ Str.is_lower_letter c = true).
Proof.
  intros query filters Hparse. apply parse_query_parsed in Hparse.
  subst filters. set (q := Str.strip (Str.lower query)).
  split; [reflexivity|]. split; [|split; [|split]].
  - cbn. destruct (Str.contains "palind" q); auto.
  - cbn. destruct (Str.contains "single word" q); auto.
  - cbn. destruct (search_longer_than q) as [g|] eqn:S; [|discriminate].
    intros n [= <-].
    apply search_longer_than_sound in S as (pre & post & _ & _ & Hall & _).
    pose proof (int_acc_nonneg g 0 (Z.le_refl 0) Hall) as Hpos.
    unfold Str.int_value. lia.
  - apply rule_contains_character.
Qed.

Lemma parse_query_range_witness :
  parse_query "longer than 0 single word palindromes" =
    inr (Filters.mk (Some true) (Some 1) None (Some 1) None) /\
  1 <= 1.
Proof.
  assert (parse_query "longer than 0 single word palindromes" =
          inr (Filters.mk (Some true) (Some 1) None (Some 1) None)) as Hparse
    by (vm_compute; reflexivity).
  split; [exact Hparse|].
  exact (proj1 (proj2 (proj2 (proj2 (parse_query_range _ _ Hparse)))) 1
           eq_refl).
Defined.

(** X18.  The natural-language endpoint returns what the list endpoint
    returns for the filters parsed from the text: the same data and the same
    count; the list endpoint never refuses filters that come out of
    [parse_query]. *)
Theorem filter_nl_is_list_strings_on_parsed_filters :
  forall (query : string) (filters : Filters.t) (STORE : Store),
    parse_query query = inr filters ->
    exists data n,
      filter_nl query STORE =
        inr (mkNLResponse data n (mkInterpretedQuery query filters)) /\
      list_strings (Filters.is_palindrome filters) (Filters.min_length filters)
        (Filters.max_length filters) (Filters.word_count filters)
        (Filters.contains_character filters) STORE =
        inr (mkListResponse data n filters).
Proof.
  intros query filters STORE Hparse.
  exists (apply_filters_kw (Dict.values STORE) filters),
         (Z.of_nat (List.length (apply_filters_kw (Dict.values STORE) filters))).
  split; [unfold filter_nl; now rewrite Hparse|].
  pose proof (parse_query_parsed _ _ Hparse) as Hrules.
  assert (forall s, Filters.contains_character filters = Some s ->
            (String.length s <= 1)%nat) as Hone.
  { intros s Hs. rewrite Hrules in Hs.
    apply rule_contains_character in Hs as (c & -> & _). cbn. lia. }
  unfold list_strings, apply_filters_kw.
  destruct filters as [ip minl maxl wc [[|a [|b s]]|]]; cbn in *;
    try reflexivity.
  specialize (Hone _ eq_refl). cbn in Hone. lia.
Qed.

Lemma filter_nl_is_list_strings_on_parsed_filters_witness :
  let STORE := fst (create_string "2025-01-01T00:00:00Z" "Level" []) in
  let filters := Filters.mk (Some true) None None None (Some "l"%string) in
  parse_query "palindromes containing the letter l" = inr filters /\
  exists data n,
    filter_nl "palindromes containing the letter l" STORE =
      inr (mkNLResponse data n
             (mkInterpretedQuery "palindromes containing the letter l" filters)) /\
    list_strings (Some true) None None None (Some "l"%string) STORE =
      inr (mkListResponse data n filters).
Proof.
  cbv zeta.
  assert (parse_query "palindromes containing the letter l" =
          inr (Filters.mk (Some true) None None None (Some "l"%string)))
    as Hparse by (vm_compute; reflexivity).
  split; [exact Hparse|].
  exact (filter_nl_is_list_strings_on_parsed_filters
           "palindromes containing the letter l"
           (Filters.mk (Some true) None None None (Some "l"%string))
           (fst (create_string "2025-01-01T00:00:00Z" "Level" [])) Hparse).
Defined.

(** ** Reversal *)







